(** * Color-Rain: the falling-drop grid animation of [src/App.jsx]

    A shallow embedding of the animation component and the proofs of
    its specification.  JavaScript numbers that the component only ever
    uses as integers are modelled as [Z]; arrays are lists, read with
    stdpp's lookup and updated with stdpp's insert.  Every indexed access
    to a grid goes through a checked accessor in the [option] monad, where
    [None] stands for an access outside the array. *)

From Stdlib Require Import ZArith Lia Ascii String.
From Stdlib Require SpecFloat.
From stdpp Require Import base option list list_numbers strings.

Local Open Scope Z_scope.

(** ** Constants (lines 44-51) *)

Definition ANIMATION_INTERVAL : Z := 100.
Definition DROP_LIFE_SPAN : Z := 7.
Definition MIN_DIMENSION : Z := 1.
Definition MAX_DIMENSION : Z := 25.

(** ** The spectrum generator (lines 5-39) *)

Abbreviation rgb := (Z * Z * Z)%type.

(** [arr.slice(0, e)]: a negative end counts from the end of the array. *)
Definition slice0 {A} (l : list A) (e : Z) : list A :=
  if e <? 0 then take (Z.to_nat (Z.max 0 (Z.of_nat (length l) + e))) l
  else take (Z.to_nat e) l.

Module Spectrum.

(** [Math.floor(i * (255 / stepsPerSegment))].  The source computes the
    quotient in double precision; the embedding computes the exact
    rational.  The two agree whenever [255 / stepsPerSegment] is a dyadic
    rational, which covers the component's only call ([numSteps = 120],
    [stepsPerSegment = 20], quotient [12.75]). *)
Definition ramp (stepsPerSegment i : Z) : Z := (i * 255) / stepsPerSegment.

(** One [for (let i = 0; i < stepsPerSegment; i++) colors.push(...)]. *)
Definition segment (stepsPerSegment : Z) (mk : Z → rgb) : list rgb :=
  (λ i, mk (ramp stepsPerSegment i)) <$> seqZ 0 stepsPerSegment.

Definition generateSmoothSpectrum (numSteps : Z) : list rgb :=
  let stepsPerSegment := Z.max 1 (numSteps / 6) in
  let colors :=
    segment stepsPerSegment (λ v, (255, v, 0))
    ++ segment stepsPerSegment (λ v, (255 - v, 255, 0))
    ++ segment stepsPerSegment (λ v, (0, 255, v))
    ++ segment stepsPerSegment (λ v, (0, 255 - v, 255))
    ++ segment stepsPerSegment (λ v, (v, 0, 255))
    ++ segment stepsPerSegment (λ v, (255, 0, 255 - v)) in
  slice0 colors numSteps.

Definition valid_rgb (c : rgb) : Prop :=
  let '(r, g, b) := c in 0 ≤ r ≤ 255 ∧ 0 ≤ g ≤ 255 ∧ 0 ≤ b ≤ 255.

End Spectrum.

Definition SMOOTH_VIBGYOR_COLORS : list rgb :=
  Spectrum.generateSmoothSpectrum 120.

(** *** The generator in double precision

    [Spectrum.ramp] takes the floor of the exact quotient
    [i * 255 / stepsPerSegment].  The source first rounds
    [255 / stepsPerSegment] to a double, then rounds the product with [i]
    to a double, and takes the floor of that.  [Double] is IEEE 754
    binary64 with rounding to nearest, ties to even, as the standard
    library specifies it over the integers; [SpectrumDouble] is the
    generator with the ramp computed that way.  Step counts and ramp
    values are integers far below [2 ^ 53], on which the other operations
    of the generator are exact. *)

Module Double.

Definition prec : Z := 53.
Definition emax : Z := 1024.

(** The double nearest to an integer. *)
Definition ofZ (z : Z) : SpecFloat.spec_float :=
  SpecFloat.binary_normalize prec emax z 0 false.

Definition mul : SpecFloat.spec_float → SpecFloat.spec_float → SpecFloat.spec_float :=
  SpecFloat.SFmul prec emax.

Definition div : SpecFloat.spec_float → SpecFloat.spec_float → SpecFloat.spec_float :=
  SpecFloat.SFdiv prec emax.

(** [Math.floor], as an integer; [None] for [NaN] and the infinities. *)
Definition floor (x : SpecFloat.spec_float) : option Z :=
  match x with
  | SpecFloat.S754_zero _ => Some 0
  | SpecFloat.S754_finite s m e =>
      let v := if s then Z.neg m else Z.pos m in
      Some (if 0 <=? e then v * 2 ^ e else v / 2 ^ (- e))
  | _ => None
  end.

End Double.

Module SpectrumDouble.

(** [Math.floor(i * (255 / stepsPerSegment))]; a [NaN], which no positive
    [stepsPerSegment] gives, is read as 0. *)
Definition ramp (stepsPerSegment i : Z) : Z :=
  default 0
    (Double.floor
       (Double.mul (Double.ofZ i)
          (Double.div (Double.ofZ 255) (Double.ofZ stepsPerSegment)))).

Definition segment (stepsPerSegment : Z) (mk : Z → rgb) : list rgb :=
  (λ i, mk (ramp stepsPerSegment i)) <$> seqZ 0 stepsPerSegment.

Definition generateSmoothSpectrum (numSteps : Z) : list rgb :=
  let stepsPerSegment := Z.max 1 (numSteps / 6) in
  let colors :=
    segment stepsPerSegment (λ v, (255, v, 0))
    ++ segment stepsPerSegment (λ v, (255 - v, 255, 0))
    ++ segment stepsPerSegment (λ v, (0, 255, v))
    ++ segment stepsPerSegment (λ v, (0, 255 - v, 255))
    ++ segment stepsPerSegment (λ v, (v, 0, 255))
    ++ segment stepsPerSegment (λ v, (255, 0, 255 - v)) in
  slice0 colors numSteps.

End SpectrumDouble.

(** ** Randomness

    [Math.random()] is an oracle.  The only use is
    [Math.floor(Math.random() * (i + 1))] in the shuffle, which can yield
    any integer of [0, i]; the oracle is a function giving, for the loop
    index [i], a natural number that is reduced into that interval. *)

Definition oracle : Type := nat → nat.

Definition randomBelow (rnd : oracle) (i : nat) : nat := (rnd i mod (S i))%nat.

(** ** [shuffleArray] (lines 81-87) *)

(** [[array[i], array[j]] = [array[j], array[i]]]: both reads happen
    before both writes. *)
Definition swap {A} (array : list A) (i j : nat) : list A :=
  match array !! i, array !! j with
  | Some ai, Some aj => <[j := ai]> (<[i := aj]> array)
  | _, _ => array
  end.

(** The iterations [i = n, n - 1, ..., 1]. *)
Fixpoint shuffleFrom {A} (rnd : oracle) (i : nat) (array : list A) : list A :=
  match i with
  | O => array
  | S i' => shuffleFrom rnd i' (swap array i (randomBelow rnd i))
  end.

Definition shuffleArray {A} (rnd : oracle) (array : list A) : list A :=
  shuffleFrom rnd (length array - 1)%nat array.

(** ** [generateNewSpawnColumns] (lines 91-103) *)

Definition generateNewSpawnColumns (gridCols : Z) (rnd : oracle) : list Z :=
  let minSpawnCol := 0 in
  let maxSpawnCol := Z.max 0 (gridCols - 1) in
  let dynamicNumDrops := Z.max 1 (gridCols * 1 / 4) in
  let availableCols := (λ i, minSpawnCol + i) <$> seqZ 0 (maxSpawnCol - minSpawnCol + 1) in
  let shuffledCols := shuffleArray rnd availableCols in
  slice0 shuffledCols (Z.min dynamicNumDrops (Z.of_nat (length availableCols))).

(** ** Cells and grids (lines 58-65)

    A grid slot holds [null] or an object.  The objects the component
    builds are [{ r, g, b, life }]; the object spread of line 128 also
    builds [{}] (the spread of [null] has no properties). *)

Module Cell.
Record t : Type := mk { r : Z; g : Z; b : Z; life : Z }.
End Cell.

Inductive cell : Type :=
  | null
  | emptyObject
  | colored (v : Cell.t).

(** [{ ...x }] *)
Definition spread (x : cell) : cell :=
  match x with
  | null => emptyObject
  | emptyObject => emptyObject
  | colored v => colored v
  end.

(** Truthiness of a slot: only [null] is falsy. *)
Definition truthy (x : cell) : bool :=
  match x with null => false | _ => true end.

(** [x.life], [None] for [undefined]. *)
Definition lifeOf (x : cell) : option Z :=
  match x with colored v => Some (Cell.life v) | _ => None end.

(** [x.life > 0] and [x.life <= 0]; both are false on [undefined]. *)
Definition lifePositive (x : cell) : bool :=
  match lifeOf x with Some n => 0 <? n | None => false end.
Definition lifeExhausted (x : cell) : bool :=
  match lifeOf x with Some n => n <=? 0 | None => false end.

(** [x.life--] on the object held by the slot. *)
Definition decrementLife (x : cell) : cell :=
  match x with
  | colored v => colored (Cell.mk (Cell.r v) (Cell.g v) (Cell.b v) (Cell.life v - 1))
  | _ => x
  end.

Abbreviation grid := (list (list cell)).

(** [Array(rows).fill(null).map(() => Array(cols).fill(null))] *)
Definition emptyGrid (rows cols : Z) : grid :=
  replicate (Z.to_nat rows) (replicate (Z.to_nat cols) null).

(** The slot at row [r], column [c], when there is one. *)
Definition cellAt (g : grid) (r c : Z) : option cell :=
  if (0 <=? r) && (0 <=? c) then
    line ← g !! Z.to_nat r; line !! Z.to_nat c
  else None.

(** Unchecked store; does nothing where there is no slot. *)
Definition store (g : grid) (r c : Z) (x : cell) : grid :=
  alter (λ line, <[Z.to_nat c := x]> line) (Z.to_nat r) g.

(** *** Checked accesses: [None] is an access outside the array. *)

(** [g[r].length] *)
Definition rowLength (g : grid) (r : Z) : option Z :=
  if 0 <=? r then line ← g !! Z.to_nat r; Some (Z.of_nat (length line)) else None.

(** [g[r][c]] as a value *)
Definition readCell (g : grid) (r c : Z) : option cell := cellAt g r c.

(** [g[r][c] = x] *)
Definition writeCell (g : grid) (r c : Z) (x : cell) : option grid :=
  match cellAt g r c with
  | Some _ => Some (store g r c x)
  | None => None
  end.

(** A loop whose body may fail: the iterations in list order. *)
Fixpoint forM {A S : Type} (body : A → S → option S) (l : list A) (s : S) : option S :=
  match l with
  | [] => Some s
  | i :: l' => s' ← body i s; forM body l' s'
  end.

(** ** Drops and the mutable references (lines 67-78)

    [drop.color] is a reference to one of the arrays of
    [SMOOTH_VIBGYOR_COLORS]; the embedding keeps the index of that array,
    so that [===] between two such references is equality of indices. *)

Module Drop.
Record t : Type := mk { col : Z; row : Z; color : nat }.
End Drop.

Definition spectrumAt (i : nat) : rgb := default (0, 0, 0) (SMOOTH_VIBGYOR_COLORS !! i).

Record refs : Type := mkRefs {
  activeDrops : list Drop.t;
  currentSpawningColorIndex : nat;
  nextColorSpawnQueue : list Z
}.

(** ** The tick (lines 122-214) *)

Section Tick.
Variables gridRows gridCols : Z.

(** Lines 125-130: the copy of the previous snapshot. *)
Definition copyCell (prevGridState : grid) (r c : Z) (newGridState : grid) : option grid :=
  x ← readCell prevGridState r c;
  writeCell newGridState r c (spread x).

Definition copyRow (prevGridState : grid) (r : Z) (newGridState : grid) : option grid :=
  len ← rowLength prevGridState r;
  forM (copyCell prevGridState r) (seqZ 0 (Z.min len gridCols)) newGridState.

Definition copyGrid (prevGridState : grid) : option grid :=
  forM (copyRow prevGridState)
       (seqZ 0 (Z.min (Z.of_nat (length prevGridState)) gridRows))
       (emptyGrid gridRows gridCols).

(** Lines 133-141: decay. *)
Definition decayCell (r c : Z) (newGridState : grid) : option grid :=
  x ← readCell newGridState r c;
  if truthy x && lifePositive x then writeCell newGridState r c (decrementLife x)
  else if truthy x && lifeExhausted x then writeCell newGridState r c null
  else Some newGridState.

Definition decay (newGridState : grid) : option grid :=
  forM (λ r, forM (decayCell r) (seqZ 0 gridCols)) (seqZ 0 gridRows) newGridState.

(** Lines 161-173: the trail of one drop.  [trailRows] lists the values
    of [r] in [for (r = drop.row; r >= Math.max(0, drop.row - 7 + 1); r--)]. *)
Definition trailRows (d : Drop.t) : list Z :=
  let lowest := Z.max 0 (Drop.row d - DROP_LIFE_SPAN + 1) in
  (λ k, Drop.row d - k) <$> seqZ 0 (Drop.row d - lowest + 1).

Definition trailCell (d : Drop.t) (r : Z) : cell :=
  let lifeRemaining := DROP_LIFE_SPAN - (Drop.row d - r) in
  let '(cr, cg, cb) := spectrumAt (Drop.color d) in
  colored (Cell.mk cr cg cb lifeRemaining).

Definition paintGuard (d : Drop.t) (r : Z) : bool :=
  (0 <=? r) && (r <? gridRows) && (0 <=? Drop.col d) && (Drop.col d <? gridCols).

Definition paintCell (d : Drop.t) (r : Z) (newGridState : grid) : option grid :=
  if paintGuard d r then writeCell newGridState r (Drop.col d) (trailCell d r)
  else Some newGridState.

Definition paintTrail (d : Drop.t) (newGridState : grid) : option grid :=
  forM (paintCell d) (trailRows d) newGridState.

(** Lines 144-180: the [forEach] over the active drops carries the grid,
    the midpoint flag and [updatedDrops]. *)
Record sweep : Type := mkSweep {
  newGridState : grid;
  anyCurrentSpawningColorDropPastHalfway : bool;
  updatedDrops : list Drop.t
}.

Definition halfwayPoint : Z := gridRows / 2.

Definition atMidpoint (index : nat) (d : Drop.t) : bool :=
  Nat.eqb (Drop.color d) index && (halfwayPoint <=? Drop.row d).

Definition keepDrop (d : Drop.t) : bool :=
  (Drop.row d + 1 <? gridRows + DROP_LIFE_SPAN) && (Drop.col d <? gridCols).

Definition advance (d : Drop.t) : Drop.t :=
  Drop.mk (Drop.col d) (Drop.row d + 1) (Drop.color d).

Definition dropStep (index : nat) (d : Drop.t) (s : sweep) : option sweep :=
  let flag := if atMidpoint index d then true
              else anyCurrentSpawningColorDropPastHalfway s in
  g ← paintTrail d (newGridState s);
  let updated := if keepDrop d then updatedDrops s ++ [advance d]
                 else updatedDrops s in
  Some (mkSweep g flag updated).

(** Lines 190-196: the colour advance. *)
Definition advanceColor (rnd : oracle) (flag : bool) (index : nat) (queue : list Z)
  : nat * list Z :=
  if flag && (length queue =? 0)%nat
  then (((index + 1) mod length SMOOTH_VIBGYOR_COLORS)%nat,
        generateNewSpawnColumns gridCols rnd)
  else (index, queue).

(** Lines 199-211: the spawn. *)
Definition spawn (index : nat) (drops : list Drop.t) (queue : list Z)
  : list Drop.t * list Z :=
  match queue with
  | colToSpawn :: rest =>
      (if colToSpawn <? gridCols then drops ++ [Drop.mk colToSpawn 0 index] else drops,
       rest)
  | [] => (drops, [])
  end.

Definition tick (rnd : oracle) (prevGridState : grid) (a : refs) : option (grid * refs) :=
  copied ← copyGrid prevGridState;
  decayed ← decay copied;
  s ← forM (dropStep (currentSpawningColorIndex a)) (activeDrops a)
           (mkSweep decayed false []);
  let '(index, queue) :=
    advanceColor rnd (anyCurrentSpawningColorDropPastHalfway s)
                 (currentSpawningColorIndex a) (nextColorSpawnQueue a) in
  let '(drops, queue') := spawn index (updatedDrops s) queue in
  Some (newGridState s, mkRefs drops index queue').

End Tick.

(** ** The dimension inputs (lines 240-259) *)

Module ParseInt.

(** [parseInt(string)] with no radix, on a string of code units below 256
    (the value of a number field is ASCII).  The result is [None] for
    [NaN]; [-0] is [0].  The source rounds the mathematical integer to a
    double, which changes neither whether it is zero nor how it compares
    with 1 and 25. *)

Definition codeOf (a : ascii) : Z := Z.of_N (N_of_ascii a).

Definition isWhiteSpace (a : ascii) : bool :=
  let n := codeOf a in
  ((9 <=? n) && (n <=? 13)) || (n =? 32) || (n =? 160).

Fixpoint trimStart (s : string) : string :=
  match s with
  | String a s' => if isWhiteSpace a then trimStart s' else s
  | EmptyString => s
  end.

Definition digitValue (a : ascii) : option Z :=
  let n := codeOf a in
  if (48 <=? n) && (n <=? 57) then Some (n - 48)
  else if (97 <=? n) && (n <=? 122) then Some (n - 87)
  else if (65 <=? n) && (n <=? 90) then Some (n - 55)
  else None.

(** The longest prefix of digits of the radix, read from the left;
    [acc] is [None] until a digit has been read. *)
Fixpoint digits (radix : Z) (s : string) (acc : option Z) : option Z :=
  match s with
  | String a s' =>
      match digitValue a with
      | Some d =>
          if d <? radix then digits radix s' (Some (default 0 acc * radix + d))
          else acc
      | None => acc
      end
  | EmptyString => acc
  end.

(** An optional sign. *)
Definition splitSign (s : string) : Z * string :=
  match s with
  | String "-" s' => (-1, s')
  | String "+" s' => (1, s')
  | _ => (1, s)
  end.

(** An optional [0x] or [0X], which selects radix 16. *)
Definition splitRadix (s : string) : Z * string :=
  match s with
  | String "0" (String "x" s') => (16, s')
  | String "0" (String "X" s') => (16, s')
  | _ => (10, s)
  end.

Definition parseInt (input : string) : option Z :=
  let '(sign, s) := splitSign (trimStart input) in
  let '(radix, s) := splitRadix s in
  match digits radix s None with
  | Some mathInt => Some (sign * mathInt)
  | None => None
  end.

End ParseInt.

(** [value || MIN_DIMENSION]: [NaN] and [0] are falsy. *)
Definition orMinimum (value : option Z) : Z :=
  match value with
  | Some v => if v =? 0 then MIN_DIMENSION else v
  | None => MIN_DIMENSION
  end.

(** [Math.min(Math.max(value || MIN_DIMENSION, MIN_DIMENSION), MAX_DIMENSION)] *)
Definition clampDimension (value : option Z) : Z :=
  Z.min (Z.max (orMinimum value) MIN_DIMENSION) MAX_DIMENSION.

Definition onChangeValue (input : string) : Z :=
  clampDimension (ParseInt.parseInt input).

(** ** The component state and its transitions

    The interval callbacks run one at a time, and a change of dimension
    clears the interval and runs the effect again, so the component is a
    state machine over ticks and input events. *)

Module App.
Record t : Type := mk {
  gridRows : Z;
  gridCols : Z;
  gridState : grid;
  animation : refs
}.
End App.

(** Lines 107-116: what the effect does before it starts the interval. *)
Definition effect (gridRows gridCols : Z) (rnd : oracle) : App.t :=
  App.mk gridRows gridCols
         (emptyGrid gridRows gridCols)
         (mkRefs [] 0 (generateNewSpawnColumns gridCols rnd)).

(** Lines 55-56: the component mounts with 15 rows and 20 columns. *)
Definition mount (rnd : oracle) : App.t := effect 15 20 rnd.

(** The effect re-runs when a dimension of its dependency list changed. *)
Definition setGridRows (rows : Z) (rnd : oracle) (s : App.t) : App.t :=
  if rows =? App.gridRows s then s else effect rows (App.gridCols s) rnd.

Definition setGridCols (cols : Z) (rnd : oracle) (s : App.t) : App.t :=
  if cols =? App.gridCols s then s else effect (App.gridRows s) cols rnd.

(** One firing of the interval. *)
Definition interval (rnd : oracle) (s : App.t) : option App.t :=
  '(g, a) ← tick (App.gridRows s) (App.gridCols s) rnd (App.gridState s) (App.animation s);
  Some (App.mk (App.gridRows s) (App.gridCols s) g a).

Inductive event : Type :=
  | Tick (rnd : oracle)
  | RowsInput (input : string) (rnd : oracle)
  | ColsInput (input : string) (rnd : oracle).

Definition step (e : event) (s : App.t) : option App.t :=
  match e with
  | Tick rnd => interval rnd s
  | RowsInput input rnd => Some (setGridRows (onChangeValue input) rnd s)
  | ColsInput input rnd => Some (setGridCols (onChangeValue input) rnd s)
  end.

Inductive reachable : App.t → Prop :=
  | reachable_mount rnd : reachable (mount rnd)
  | reachable_step e s s' : reachable s → step e s = Some s' → reachable s'.

(** The state after a list of events, oldest first. *)
Definition run (events : list event) (s : App.t) : option App.t :=
  forM step events s.

(** ** Notions used to state the properties *)

Definition rnd0 : oracle := λ _, 0%nat.

Definition inBounds (rows cols r c : Z) : bool :=
  (0 <=? r) && (r <? rows) && (0 <=? c) && (c <? cols).

(** A grid has exactly the slots of a [rows] by [cols] matrix. *)
Definition hasShape (rows cols : Z) (g : grid) : Prop :=
  ∀ r c, is_Some (cellAt g r c) ↔ inBounds rows cols r c = true.

(** What line 128 leaves in a slot of the new grid. *)
Definition copiedCell (prevGridState : grid) (r c : Z) : cell :=
  match cellAt prevGridState r c with
  | Some x => spread x
  | None => null
  end.

(** What lines 135-139 leave in a slot that held [x]. *)
Definition decayedCell (x : cell) : cell :=
  if truthy x && lifePositive x then decrementLife x
  else if truthy x && lifeExhausted x then null
  else x.

Definition widthOf (g : grid) (r : Z) : Z :=
  Z.of_nat (length (default [] (g !! Z.to_nat r))).

(** The slot at row [r], column [c] is one that the trail of [d] stores into. *)
Definition covers (gridRows gridCols : Z) (d : Drop.t) (r c : Z) : bool :=
  (c =? Drop.col d)
  && paintGuard gridRows gridCols d r
  && (Z.max 0 (Drop.row d - DROP_LIFE_SPAN + 1) <=? r)
  && (r <=? Drop.row d).

(** Some drop of the list stores into the slot. *)
Definition repainted (gridRows gridCols : Z) (drops : list Drop.t) (r c : Z) : bool :=
  existsb (λ d, covers gridRows gridCols d r c) drops.

(** The slot after the trails of [drops] were painted in order. *)
Fixpoint overlay (gridRows gridCols : Z) (drops : list Drop.t) (r c : Z) (x : cell)
    : cell :=
  match drops with
  | [] => x
  | d :: drops' =>
      overlay gridRows gridCols drops' r c
        (if covers gridRows gridCols d r c then trailCell d r else x)
  end.

Definition paintAll (gridRows gridCols : Z) (drops : list Drop.t) (g : grid) : option grid :=
  forM (paintTrail gridRows gridCols) drops g.

(** The slot of the new snapshot at an in-bounds position. *)
Definition tickCell (gridRows gridCols : Z) (prevGridState : grid)
    (drops : list Drop.t) (r c : Z) : cell :=
  overlay gridRows gridCols drops r c (decayedCell (copiedCell prevGridState r c)).

(** The references at the end of the tick. *)
Definition tickRefs (gridRows gridCols : Z) (rnd : oracle) (a : refs) : refs :=
  let flag := existsb (atMidpoint gridRows (currentSpawningColorIndex a)) (activeDrops a) in
  let survivors :=
    advance <$> filter (λ d, keepDrop gridRows gridCols d = true) (activeDrops a) in
  let '(index, queue) :=
    advanceColor gridCols rnd flag (currentSpawningColorIndex a) (nextColorSpawnQueue a) in
  let '(drops, queue') := spawn gridCols index survivors queue in
  mkRefs drops index queue'.

(** What the references of a reachable state satisfy. *)
Definition dropInvariant (gridCols : Z) (d : Drop.t) : Prop :=
  0 ≤ Drop.row d
  ∧ 0 ≤ Drop.col d < gridCols
  ∧ (Drop.color d < length SMOOTH_VIBGYOR_COLORS)%nat.

Definition refsInvariant (gridCols : Z) (a : refs) : Prop :=
  Forall (dropInvariant gridCols) (activeDrops a)
  ∧ (currentSpawningColorIndex a < length SMOOTH_VIBGYOR_COLORS)%nat
  ∧ Forall (λ c, 0 ≤ c < gridCols) (nextColorSpawnQueue a).

#[global] Instance drop_eq_dec : EqDecision Drop.t.
Proof. solve_decision. Defined.

(** C2, as the specification words it: the drop is gone after the tick
    exactly when its advanced row exceeds [gridRows + DROP_LIFE_SPAN] or
    its column lies outside [[0, gridCols)]. *)
Definition retirementAsStated (gridRows gridCols : Z) (d : Drop.t) (a' : refs) : Prop :=
  advance d ∉ activeDrops a'
  ↔ (gridRows + DROP_LIFE_SPAN < Drop.row d + 1 ∨ ¬ (0 ≤ Drop.col d < gridCols)).

(** The scenario of C5 with the life of the painted slot left open: from
    the mounted 15 by 20 grid, the first tick leaves exactly one drop, at
    row 0, of the first colour; after the second tick that drop is at
    row 1 and the slot at row 0 of its column holds the first colour with
    the given life. *)
Definition scenario (lifeAtRowZero : Z) (rndMount rnd1 rnd2 : oracle) : Prop :=
  ∃ s1 s2 c0 v,
    interval rnd1 (mount rndMount) = Some s1
    ∧ activeDrops (App.animation s1) = [Drop.mk c0 0 0]
    ∧ interval rnd2 s1 = Some s2
    ∧ Drop.mk c0 1 0 ∈ activeDrops (App.animation s2)
    ∧ cellAt (App.gridState s2) 0 c0 = Some (colored v)
    ∧ SMOOTH_VIBGYOR_COLORS !! 0%nat = Some (Cell.r v, Cell.g v, Cell.b v)
    ∧ Cell.life v = lifeAtRowZero.

(** C7, as the specification words it: a slot holds [null] or an object
    [{ r, g, b, life }] whose life is positive. *)
Definition cellAsSpecified (x : cell) : Prop :=
  x = null ∨ ∃ v, x = colored v ∧ 0 < Cell.life v.

(** What the ticks maintain for the objects that carry a life. *)
Definition cellInvariant (x : cell) : Prop :=
  match x with
  | colored v => 0 ≤ Cell.life v ≤ DROP_LIFE_SPAN
  | _ => True
  end.

(** Decimal numerals, to state what [parseInt] reads from an integer
    written in decimal. *)

Definition digitChar (d : Z) : ascii := ascii_of_N (Z.to_N (48 + d)).

Fixpoint numeral (ds : list Z) : string :=
  match ds with
  | [] => EmptyString
  | d :: ds' => String (digitChar d) (numeral ds')
  end.

Definition numeralValue (ds : list Z) : Z := foldl (λ acc d, acc * 10 + d) 0 ds.

Definition isDigit (d : Z) : Prop := 0 ≤ d ≤ 9.

Ltac each_digit d H :=
  assert (d = 0 ∨ d = 1 ∨ d = 2 ∨ d = 3 ∨ d = 4
          ∨ d = 5 ∨ d = 6 ∨ d = 7 ∨ d = 8 ∨ d = 9)
    as Hcases by (unfold isDigit in H; lia);
  clear H; repeat (destruct Hcases as [->|Hcases]); [..|subst d].

(** ** Notions used to state further properties *)

(** The drops of a list from the oldest to the youngest: each one is
    strictly above all the ones before it. *)
Fixpoint fallingOrder (drops : list Drop.t) : Prop :=
  match drops with
  | [] => True
  | d :: drops' => Forall (λ d', Drop.row d' < Drop.row d) drops' ∧ fallingOrder drops'
  end.

(** The spawn queue is not empty, or a drop of the spawning colour has
    still to reach the midpoint row. *)
Definition colourPending (s : App.t) : Prop :=
  nextColorSpawnQueue (App.animation s) ≠ []
  ∨ ∃ d, d ∈ activeDrops (App.animation s)
         ∧ Drop.color d = currentSpawningColorIndex (App.animation s)
         ∧ Drop.row d ≤ App.gridRows s / 2.

(** The colour of an object [{ r, g, b, life }] is an entry of the spectrum. *)
Definition spectrumColoured (x : cell) : Prop :=
  match x with
  | colored v => (Cell.r v, Cell.g v, Cell.b v) ∈ SMOOTH_VIBGYOR_COLORS
  | _ => True
  end.

(** [rows] arrays of [cols] slots each. *)
Definition rectangular (rows cols : Z) (g : grid) : Prop :=
  Z.of_nat (length g) = rows ∧ Forall (λ line, Z.of_nat (length line) = cols) g.

(** The decimal digits [ds] followed by [rest]. *)
Fixpoint numeralBefore (ds : list Z) (rest : string) : string :=
  match ds with
  | [] => rest
  | d :: ds' => String (digitChar d) (numeralBefore ds' rest)
  end.

(** What may follow the integer part in the value of a number field: nothing,
    a fraction or an exponent. *)
Definition afterInteger (rest : string) : Prop :=
  match rest with
  | EmptyString => True
  | String c _ => c = "."%char ∨ c = "e"%char ∨ c = "E"%char
  end.

Definition withSign (negative : bool) (s : string) : string :=
  if negative then String "-" s else s.

Definition signOf (negative : bool) : Z := if negative then -1 else 1.

(** The integer of [[MIN_DIMENSION, MAX_DIMENSION]] nearest to [value]. *)
Definition nearestBound (value : Z) : Z :=
  if value <? MIN_DIMENSION then MIN_DIMENSION
  else if MAX_DIMENSION <? value then MAX_DIMENSION
  else value.

(** C9, as the specification words it: the input is a way of writing the
    number [value], and what is stored is [value] brought to the nearest
    bound. *)
Definition clampAsStated (input : string) (value : Z) : Prop :=
  onChangeValue input = nearestBound value.

(** Scientific notation, [ds] then [e] then the exponent [es], and the
    number it writes. *)
Definition scientific (ds es : list Z) : string :=
  numeralBefore ds (String "e" (numeral es)).

Definition scientificValue (ds es : list Z) : Z :=
  numeralValue ds * 10 ^ numeralValue es.

(** [s] after a number of spaces. *)
Definition indented (spaces : nat) (s : string) : string :=
  Nat.iter spaces (String " ") s.

(** No number starts [s]: it is empty, or its first character is neither
    white space, nor a sign, nor a decimal digit. *)
Definition startsNoNumber (s : string) : Prop :=
  match s with
  | EmptyString => True
  | String c _ =>
      ParseInt.isWhiteSpace c = false ∧ c ≠ "-"%char ∧ c ≠ "+"%char
      ∧ ∀ d, ParseInt.digitValue c = Some d → 10 ≤ d
  end.

(** The segment lengths up to 255 at which the double ramp differs from
    the exact one. *)
Definition inexactSteps : list Z := [105; 117; 187; 210; 221; 234; 235].

(** The double ramp, given the double [255 / stepsPerSegment]. *)
Definition rampBy (quotient : SpecFloat.spec_float) (i : Z) : Z :=
  default 0 (Double.floor (Double.mul (Double.ofZ i) quotient)).

(** What the double ramp is checked for along the indices of a segment:
    each value is above the one before and at most 254, and it is the
    exact value unless the segment is marked inexact. *)
Fixpoint rampCheck (quotient : SpecFloat.spec_float) (stepsPerSegment : Z)
    (inexact : bool) (previous : Z) (indices : list Z) : bool :=
  match indices with
  | [] => true
  | i :: indices' =>
      let v := rampBy quotient i in
      (previous <? v) && (v <=? 254)
      && (inexact || (v =? Spectrum.ramp stepsPerSegment i))
      && rampCheck quotient stepsPerSegment inexact v indices'
  end.

Definition segmentCheck (stepsPerSegment : Z) : bool :=
  rampCheck (Double.div (Double.ofZ 255) (Double.ofZ stepsPerSegment)) stepsPerSegment
    (existsb (Z.eqb stepsPerSegment) inexactSteps) (-1) (seqZ 0 stepsPerSegment).

(** * Proofs *)

(** ** Loops *)

Section Loops.
Context {A S : Type}.
Implicit Types (body : A → S → option S) (l : list A) (s : S).

Lemma forM_app body l1 l2 s :
  forM body (l1 ++ l2) s = (s' ← forM body l1 s; forM body l2 s').
Proof.
  revert s. induction l1 as [|i l1 IH]; intros s; simpl; [done|].
  destruct (body i s) as [s'|]; simpl; [apply IH | done].
Qed.

Lemma forM_ext body1 body2 l s :
  (∀ i s', i ∈ l → body1 i s' = body2 i s') →
  forM body1 l s = forM body2 l s.
Proof.
  revert s. induction l as [|i l IH]; intros s Hext; simpl; [done|].
  rewrite (Hext i s) by left.
  destruct (body2 i s) as [s'|]; simpl; [|done].
  apply IH. intros j s'' Hj. apply Hext. by right.
Qed.

(** Iterations on which the body does nothing can be left out. *)
Lemma forM_filter (P : A → Prop) `{∀ i, Decision (P i)} body l s :
  (∀ i s', ¬ P i → body i s' = Some s') →
  forM body l s = forM body (filter P l) s.
Proof.
  intros Hskip. revert s. induction l as [|i l IH]; intros s; [done|].
  rewrite filter_cons. destruct (decide (P i)) as [Hi|Hi]; simpl.
  - destruct (body i s); simpl; [apply IH | done].
  - rewrite (Hskip i s Hi). simpl. apply IH.
Qed.
End Loops.

(** A nested loop visits the pairs of indices in lexicographic order. *)
Lemma forM_nested {A B S} (body : A → B → S → option S) (inner : A → list B)
    (l : list A) (s : S) :
  forM (λ i, forM (body i) (inner i)) l s
  = forM (λ p, body p.1 p.2) (l ≫= λ i, pair i <$> inner i) s.
Proof.
  revert s. induction l as [|i l IH]; intros s; [done|].
  rewrite bind_cons, forM_app. simpl.
  assert (Hin : ∀ k s0, forM (body i) k s0
                        = forM (λ p : A * B, body p.1 p.2) (pair i <$> k) s0).
  { induction k as [|j k IHk]; intros s0; simpl; [done|].
    destruct (body i j s0); simpl; [apply IHk | done]. }
  rewrite Hin. destruct (forM _ (pair i <$> inner i) s); simpl; [apply IH | done].
Qed.

(** ** Grids *)

Lemma cellAt_Some g r c x :
  cellAt g r c = Some x →
  0 ≤ r ∧ 0 ≤ c ∧ ∃ line, g !! Z.to_nat r = Some line ∧ line !! Z.to_nat c = Some x.
Proof.
  unfold cellAt. destruct (0 <=? r) eqn:Hr; destruct (0 <=? c) eqn:Hc; simpl; try done.
  destruct (g !! Z.to_nat r) as [line|] eqn:Hl; simpl; [|done].
  intros Hx. split_and!; [lia | lia | eauto].
Qed.

Lemma cellAt_lookup g r c line :
  0 ≤ r → 0 ≤ c → g !! Z.to_nat r = Some line →
  cellAt g r c = line !! Z.to_nat c.
Proof.
  intros Hr Hc Hl. unfold cellAt.
  replace (0 <=? r) with true by lia. replace (0 <=? c) with true by lia.
  simpl. by rewrite Hl.
Qed.

Lemma cellAt_store_eq g r c x y :
  cellAt g r c = Some y → cellAt (store g r c x) r c = Some x.
Proof.
  intros (Hr & Hc & line & Hl & Hy)%cellAt_Some.
  rewrite (cellAt_lookup _ _ _ (<[Z.to_nat c := x]> line)); [| done | done |].
  - apply list_lookup_insert_eq. by eapply lookup_lt_Some.
  - unfold store. by rewrite list_lookup_alter_eq, Hl.
Qed.

Lemma cellAt_store_ne g r c x r' c' :
  0 ≤ r → 0 ≤ c → (r, c) ≠ (r', c') →
  cellAt (store g r c x) r' c' = cellAt g r' c'.
Proof.
  intros Hr Hc Hne. unfold cellAt.
  destruct (0 <=? r') eqn:Hr'; destruct (0 <=? c') eqn:Hc'; simpl; try done.
  unfold store. destruct (decide (r = r')) as [->|Hrr].
  - rewrite list_lookup_alter_eq.
    destruct (g !! Z.to_nat r') as [line|]; simpl; [|done].
    apply list_lookup_insert_ne. intros Heq. apply Hne. f_equal. lia.
  - rewrite list_lookup_alter_ne by lia. done.
Qed.

Lemma store_same g r c x : cellAt g r c = Some x → store g r c x = g.
Proof.
  intros (Hr & Hc & line & Hl & Hx)%cellAt_Some. unfold store.
  apply list_eq. intros i. destruct (decide (i = Z.to_nat r)) as [->|Hi].
  - rewrite list_lookup_alter_eq, Hl. simpl. by rewrite list_insert_id.
  - by rewrite list_lookup_alter_ne.
Qed.

Lemma cellAt_emptyGrid rows cols r c :
  cellAt (emptyGrid rows cols) r c
  = if (0 <=? r) && (r <? rows) && (0 <=? c) && (c <? cols) then Some null else None.
Proof.
  unfold cellAt, emptyGrid.
  destruct (0 <=? r) eqn:Hr; destruct (0 <=? c) eqn:Hc; simpl;
    rewrite ?andb_false_r; try done.
  destruct (r <? rows) eqn:Hrr; simpl.
  - rewrite lookup_replicate_2 by lia. simpl.
    destruct (c <? cols) eqn:Hcc.
    + rewrite lookup_replicate_2 by lia. done.
    + apply lookup_replicate_None. lia.
  - replace (replicate (Z.to_nat rows) _ !! Z.to_nat r) with (@None (list cell)); [done|].
    symmetry. apply lookup_replicate_None. lia.
Qed.

Lemma writeCell_Some g r c x y :
  cellAt g r c = Some y → writeCell g r c x = Some (store g r c x).
Proof. intros H. unfold writeCell. by rewrite H. Qed.

(** A loop that stores into one slot per iteration, each slot once. *)
Lemma forM_cells {A} (body : A → grid → option grid) (pos : A → Z * Z)
    (f : Z → Z → cell → cell) (l : list A) (g : grid) :
  NoDup (pos <$> l) →
  (∀ i, i ∈ l → is_Some (cellAt g (pos i).1 (pos i).2)) →
  (∀ i g' x, i ∈ l → cellAt g' (pos i).1 (pos i).2 = Some x →
     body i g' = Some (store g' (pos i).1 (pos i).2 (f (pos i).1 (pos i).2 x))) →
  ∃ g', forM body l g = Some g' ∧
    (∀ r c, (r, c) ∈ pos <$> l → cellAt g' r c = f r c <$> cellAt g r c) ∧
    (∀ r c, (r, c) ∉ pos <$> l → cellAt g' r c = cellAt g r c).
Proof.
  revert g. induction l as [|i l IH]; intros g Hnd Hdom Hbody.
  { exists g. split_and!; [done | | done]. intros r c Hin. inv Hin. }
  rewrite fmap_cons in Hnd. apply NoDup_cons in Hnd as [Hi Hnd].
  destruct (Hdom i) as [x Hx]; [left|].
  destruct (pos i) as [ri ci] eqn:Hpi; simpl in *.
  destruct (cellAt_Some _ _ _ _ Hx) as (Hri & Hci & _).
  pose proof (Hbody i g x) as Hstep. rewrite Hpi in Hstep. simpl in Hstep.
  rewrite Hstep by (done || left). simpl.
  set (g1 := store g ri ci (f ri ci x)).
  assert (Hg1 : ∀ r c, (r, c) ≠ (ri, ci) → cellAt g1 r c = cellAt g r c).
  { intros r c Hne. apply cellAt_store_ne; [done | done | congruence]. }
  destruct (IH g1) as (g' & Hrun & Hin & Hout); [done | | |].
  - intros j Hj. rewrite Hg1.
    + apply Hdom. by right.
    + intros Heq. apply Hi. rewrite <- Heq, <- surjective_pairing.
      by apply list_elem_of_fmap_2.
  - intros j g' y Hj. apply Hbody. by right.
  - exists g'. split; [done|]. split.
    + intros r c [Heq|Hrc]%elem_of_cons.
      * rewrite ?Hpi in Heq. injection Heq as -> ->. rewrite Hout by done. rewrite Hx. simpl.
        unfold g1. by eapply cellAt_store_eq.
      * rewrite Hin by done. rewrite Hg1; [done|]. intros Heq. by rewrite Heq in Hrc.
    + intros r c Hrc. apply not_elem_of_cons in Hrc as [Hne Hrc].
      rewrite (Hout _ _ Hrc). apply Hg1. by rewrite <- Hpi.
Qed.

(** ** The copy and the decay *)

Section CopyDecay.
Variables gridRows gridCols : Z.

Lemma hasShape_emptyGrid : hasShape gridRows gridCols (emptyGrid gridRows gridCols).
Proof.
  intros r c. rewrite cellAt_emptyGrid. unfold inBounds.
  destruct (_ && _); [split; eauto | split; [intros []|]; done].
Qed.

Lemma NoDup_cells (rs : list Z) (cs : Z → list Z) :
  NoDup rs → (∀ r, NoDup (cs r)) → NoDup (rs ≫= λ r, pair r <$> cs r).
Proof.
  intros Hrs Hcs. apply NoDup_bind; [| | done].
  - intros r1 r2 [r c] _ _ (c1 & Heq1 & _)%list_elem_of_fmap (c2 & Heq2 & _)%list_elem_of_fmap.
    congruence.
  - intros r _. apply NoDup_fmap_2; [|done]. intros c1 c2. congruence.
Qed.

Lemma elem_of_cells (rs : list Z) (cs : Z → list Z) r c :
  (r, c) ∈ (rs ≫= λ r, pair r <$> cs r) ↔ r ∈ rs ∧ c ∈ cs r.
Proof.
  rewrite list_elem_of_bind. split.
  - intros (r' & (c' & Heq & Hc)%list_elem_of_fmap & Hr). by simplify_eq.
  - intros [Hr Hc]. exists r. split; [|done]. by apply list_elem_of_fmap_2.
Qed.

Lemma cellAt_is_Some g r c :
  is_Some (cellAt g r c)
  ↔ 0 ≤ r < Z.of_nat (length g) ∧ 0 ≤ c < widthOf g r.
Proof.
  unfold widthOf. split.
  - intros [x (Hr & Hc & line & Hl & Hx)%cellAt_Some].
    rewrite Hl. simpl. apply lookup_lt_Some in Hl, Hx. lia.
  - intros [Hr Hc].
    destruct (lookup_lt_is_Some_2 g (Z.to_nat r)) as [line Hl]; [lia|].
    rewrite Hl in Hc. simpl in Hc.
    rewrite (cellAt_lookup _ _ _ line) by (done || lia).
    apply lookup_lt_is_Some_2. lia.
Qed.

Lemma copyGrid_spec prevGridState :
  ∃ g, copyGrid gridRows gridCols prevGridState = Some g ∧
    ∀ r c, cellAt g r c
           = if inBounds gridRows gridCols r c
             then Some (copiedCell prevGridState r c) else None.
Proof.
  unfold copyGrid.
  set (rs := seqZ 0 (Z.min (Z.of_nat (length prevGridState)) gridRows)).
  set (cs := λ r, seqZ 0 (Z.min (widthOf prevGridState r) gridCols)).
  rewrite (forM_ext _ (λ r, forM (copyCell prevGridState r) (cs r))); last first.
  { intros r g [Hr0 Hr1]%elem_of_seqZ. unfold copyRow, rowLength.
    replace (0 <=? r) with true by lia.
    destruct (lookup_lt_is_Some_2 prevGridState (Z.to_nat r)) as [line Hl]; [lia|].
    unfold cs, widthOf. rewrite Hl. done. }
  rewrite forM_nested.
  destruct (forM_cells (λ p, copyCell prevGridState p.1 p.2) id
              (λ r c _, copiedCell prevGridState r c)
              (rs ≫= λ r, pair r <$> cs r)
              (emptyGrid gridRows gridCols)) as (g & Hrun & Hin & Hout).
  - rewrite list_fmap_id. apply NoDup_cells; intros; apply NoDup_seqZ.
  - intros [r c] [[Hr0 Hr1]%elem_of_seqZ [Hc0 Hc1]%elem_of_seqZ]%elem_of_cells.
    simpl. apply hasShape_emptyGrid. unfold inBounds. lia.
  - intros [r c] g x [[Hr0 Hr1]%elem_of_seqZ [Hc0 Hc1]%elem_of_seqZ]%elem_of_cells Hx.
    simpl in *. unfold copyCell, readCell, copiedCell.
    destruct (proj2 (cellAt_is_Some prevGridState r c)) as [y Hy]; [lia|].
    rewrite Hy. simpl. by eapply writeCell_Some.
  - exists g. split; [done|]. intros r c. rewrite list_fmap_id in Hin, Hout.
    pose proof (cellAt_emptyGrid gridRows gridCols r c) as He.
    fold (inBounds gridRows gridCols r c) in He.
    destruct (decide ((r, c) ∈ rs ≫= λ r, pair r <$> cs r)) as [Hrc|Hrc].
    + rewrite Hin, He by done.
      apply elem_of_cells in Hrc as [[Hr0 Hr1]%elem_of_seqZ [Hc0 Hc1]%elem_of_seqZ].
      replace (inBounds gridRows gridCols r c) with true by (unfold inBounds; lia).
      done.
    + rewrite Hout, He by done.
      destruct (inBounds gridRows gridCols r c) eqn:Hb; [|done].
      unfold copiedCell. destruct (cellAt prevGridState r c) as [y|] eqn:Hy; [|done].
      exfalso. apply Hrc, elem_of_cells.
      destruct (proj1 (cellAt_is_Some prevGridState r c)) as [Hr Hc]; [eauto|].
      unfold rs, cs. rewrite !elem_of_seqZ. unfold inBounds in Hb. lia.
Qed.

Lemma decayCell_store g r c x :
  cellAt g r c = Some x → decayCell r c g = Some (store g r c (decayedCell x)).
Proof.
  intros Hx. unfold decayCell, readCell, decayedCell. rewrite Hx. simpl.
  destruct (truthy x && lifePositive x); [by eapply writeCell_Some|].
  destruct (truthy x && lifeExhausted x); [by eapply writeCell_Some|].
  by rewrite store_same.
Qed.

Lemma decay_spec g :
  hasShape gridRows gridCols g →
  ∃ g', decay gridRows gridCols g = Some g' ∧
    ∀ r c, cellAt g' r c = decayedCell <$> cellAt g r c.
Proof.
  intros Hshape. unfold decay. rewrite forM_nested.
  destruct (forM_cells (λ p, decayCell p.1 p.2) id (λ _ _, decayedCell)
              (seqZ 0 gridRows ≫= λ r, pair r <$> seqZ 0 gridCols) g)
    as (g' & Hrun & Hin & Hout).
  - rewrite list_fmap_id. apply NoDup_cells; intros; apply NoDup_seqZ.
  - intros [r c] [[Hr0 Hr1]%elem_of_seqZ [Hc0 Hc1]%elem_of_seqZ]%elem_of_cells.
    simpl. apply Hshape. unfold inBounds. lia.
  - intros [r c] g0 x _ Hx. simpl in *. by apply decayCell_store.
  - exists g'. split; [done|]. intros r c. rewrite list_fmap_id in Hin, Hout.
    destruct (decide ((r, c) ∈ seqZ 0 gridRows ≫= λ r, pair r <$> seqZ 0 gridCols))
      as [Hrc|Hrc]; [by apply Hin|].
    rewrite Hout by done.
    destruct (cellAt g r c) as [x|] eqn:Hx; [|done].
    exfalso. apply Hrc, elem_of_cells. rewrite !elem_of_seqZ.
    assert (Hb : inBounds gridRows gridCols r c = true) by (apply Hshape; rewrite Hx; eauto).
    unfold inBounds in Hb. lia.
Qed.
End CopyDecay.

(** ** The trails *)

Lemma hasShape_pointwise rows cols (h : Z → Z → cell → cell) (g g' : grid) :
  (∀ r c, cellAt g' r c = h r c <$> cellAt g r c) →
  hasShape rows cols g → hasShape rows cols g'.
Proof.
  intros Hpt Hshape r c. rewrite Hpt, fmap_is_Some. apply Hshape.
Qed.

Lemma hasShape_cells rows cols (f : Z → Z → cell) (g : grid) :
  (∀ r c, cellAt g r c = if inBounds rows cols r c then Some (f r c) else None) →
  hasShape rows cols g.
Proof.
  intros Hcells r c. rewrite Hcells.
  destruct (inBounds rows cols r c); [split; eauto | split; [intros []|]; done].
Qed.

Section Trails.
Variables gridRows gridCols : Z.

Lemma elem_of_trailRows d r :
  r ∈ trailRows d ↔ Z.max 0 (Drop.row d - DROP_LIFE_SPAN + 1) ≤ r ≤ Drop.row d.
Proof.
  unfold trailRows. rewrite list_elem_of_fmap. setoid_rewrite elem_of_seqZ. split.
  - intros (k & -> & Hk). lia.
  - intros Hr. exists (Drop.row d - r). lia.
Qed.

Lemma NoDup_trailRows d : NoDup (trailRows d).
Proof.
  unfold trailRows. apply NoDup_fmap_2; [|apply NoDup_seqZ].
  intros k1 k2 Hk. lia.
Qed.

Lemma paintTrail_spec d g :
  hasShape gridRows gridCols g →
  ∃ g', paintTrail gridRows gridCols d g = Some g' ∧
    ∀ r c, cellAt g' r c
           = (λ x, if covers gridRows gridCols d r c then trailCell d r else x) <$> cellAt g r c.
Proof.
  intros Hshape. unfold paintTrail.
  rewrite (forM_filter (λ r, paintGuard gridRows gridCols d r = true)); last first.
  { intros r g0 Hr. unfold paintCell. by destruct (paintGuard _ _ d r). }
  set (rows := filter _ (trailRows d)).
  destruct (forM_cells (paintCell gridRows gridCols d) (λ r, (r, Drop.col d))
              (λ r _ _, trailCell d r) rows g) as (g' & Hrun & Hin & Hout).
  - apply NoDup_fmap_2; [intros r1 r2; congruence|].
    apply NoDup_filter, NoDup_trailRows.
  - intros r [Hg _]%list_elem_of_filter. simpl. apply Hshape.
    unfold paintGuard in Hg. unfold inBounds. lia.
  - intros r g0 x [Hg _]%list_elem_of_filter Hx. simpl in *.
    unfold paintCell. rewrite Hg. by eapply writeCell_Some.
  - exists g'. split; [done|]. intros r c.
    assert (Hiff : (r, c) ∈ (λ r, (r, Drop.col d)) <$> rows
                 ↔ covers gridRows gridCols d r c = true).
    { rewrite list_elem_of_fmap. unfold rows, covers.
      setoid_rewrite list_elem_of_filter. setoid_rewrite elem_of_trailRows. split.
      - intros (r' & [= -> ->] & Hg & Hr). rewrite Hg. lia.
      - intros Hc. exists r. split; [f_equal; lia|].
        destruct (paintGuard gridRows gridCols d r); [split; [done|]; lia | lia]. }
    destruct (covers gridRows gridCols d r c) eqn:Hc.
    + rewrite Hin by by apply Hiff. done.
    + rewrite Hout; [by destruct (cellAt g r c)|]. rewrite Hiff. done.
Qed.

Lemma paintAll_spec drops g :
  hasShape gridRows gridCols g →
  ∃ g', paintAll gridRows gridCols drops g = Some g' ∧
    ∀ r c, cellAt g' r c = overlay gridRows gridCols drops r c <$> cellAt g r c.
Proof.
  revert g. induction drops as [|d drops IH]; intros g Hshape.
  { exists g. split; [done|]. intros r c. by destruct (cellAt g r c). }
  destruct (paintTrail_spec d g Hshape) as (g1 & Hd & Hg1).
  destruct (IH g1) as (g' & Hrun & Hg').
  { eapply hasShape_pointwise; [apply Hg1 | done]. }
  exists g'. split.
  - unfold paintAll in *. simpl. rewrite Hd. done.
  - intros r c. rewrite Hg', Hg1. by destruct (cellAt g r c).
Qed.

Lemma overlay_not_repainted drops r c x :
  repainted gridRows gridCols drops r c = false → overlay gridRows gridCols drops r c x = x.
Proof.
  revert x. induction drops as [|d drops IH]; intros x; simpl; [done|].
  intros [Hd Hrest]%orb_false_iff. rewrite Hd. by apply IH.
Qed.

(** The [forEach] of lines 151-180 paints the trails in order, raises
    the flag on a drop at the midpoint, and keeps the surviving drops. *)
Lemma sweep_spec index drops g flag updated :
  forM (dropStep gridRows gridCols index) drops (mkSweep g flag updated)
  = g' ← paintAll gridRows gridCols drops g;
    Some (mkSweep g'
            (flag || existsb (atMidpoint gridRows index) drops)
            (updated ++ (advance <$> filter (λ d, keepDrop gridRows gridCols d = true) drops))).
Proof.
  revert g flag updated. induction drops as [|d drops IH]; intros g flag updated.
  { unfold paintAll. simpl. by rewrite orb_false_r, app_nil_r. }
  unfold paintAll.
  change (forM ?b (d :: drops) ?s) with (s' ← b d s; forM b drops s').
  change (dropStep gridRows gridCols index d (mkSweep g flag updated))
    with (g1 ← paintTrail gridRows gridCols d g;
          Some (mkSweep g1 (if atMidpoint gridRows index d then true else flag)
                  (if keepDrop gridRows gridCols d then updated ++ [advance d]
                   else updated))).
  destruct (paintTrail gridRows gridCols d g) as [g1|]; simpl; [|done].
  rewrite IH. unfold paintAll.
  destruct (forM _ drops g1) as [g'|]; simpl; [|done].
  do 2 f_equal.
  - destruct (atMidpoint gridRows index d); simpl; [by rewrite orb_true_r | done].
  - rewrite filter_cons. destruct (keepDrop gridRows gridCols d) eqn:Hk.
    + rewrite decide_True by done. by rewrite <- app_assoc.
    + rewrite decide_False by done. done.
Qed.
End Trails.

(** ** The whole tick *)

Section TickSpec.
Variables gridRows gridCols : Z.

Lemma tick_spec rnd prevGridState a :
  ∃ g, tick gridRows gridCols rnd prevGridState a = Some (g, tickRefs gridRows gridCols rnd a) ∧
    ∀ r c, cellAt g r c
           = if inBounds gridRows gridCols r c
             then Some (tickCell gridRows gridCols prevGridState (activeDrops a) r c) else None.
Proof.
  destruct (copyGrid_spec gridRows gridCols prevGridState) as (g0 & Hcopy & Hg0).
  assert (Hs0 : hasShape gridRows gridCols g0).
  { eapply hasShape_cells. apply Hg0. }
  destruct (decay_spec gridRows gridCols g0 Hs0) as (g1 & Hdecay & Hg1).
  assert (Hs1 : hasShape gridRows gridCols g1).
  { eapply (hasShape_pointwise _ _ (λ _ _, decayedCell)); [apply Hg1 | done]. }
  destruct (paintAll_spec gridRows gridCols (activeDrops a) g1 Hs1) as (g & Hpaint & Hg).
  exists g. split.
  - unfold tick. rewrite Hcopy. simpl. rewrite Hdecay. simpl.
    rewrite sweep_spec, Hpaint. simpl. unfold tickRefs. simpl.
    destruct (advanceColor _ _ _ _ _) as [index queue].
    by destruct (spawn _ _ _ _) as [drops queue'].
  - intros r c. rewrite Hg, Hg1, Hg0. unfold tickCell.
    by destruct (inBounds gridRows gridCols r c).
Qed.

Lemma tick_inv rnd prevGridState a g a' :
  tick gridRows gridCols rnd prevGridState a = Some (g, a') →
  a' = tickRefs gridRows gridCols rnd a ∧
  ∀ r c, cellAt g r c
         = if inBounds gridRows gridCols r c
           then Some (tickCell gridRows gridCols prevGridState (activeDrops a) r c) else None.
Proof.
  destruct (tick_spec rnd prevGridState a) as (g0 & Hrun & Hcells).
  rewrite Hrun. intros [= <- <-]. done.
Qed.
End TickSpec.

(** ** The shuffle and the spawn columns *)

Lemma swap_Permutation {A} (array : list A) i j : swap array i j ≡ₚ array.
Proof.
  unfold swap. destruct (array !! i) as [ai|] eqn:Hi; [|done].
  destruct (array !! j) as [aj|] eqn:Hj; [|done].
  by apply Permutation_insert_swap.
Qed.

Lemma shuffleArray_Permutation {A} rnd (array : list A) : shuffleArray rnd array ≡ₚ array.
Proof.
  unfold shuffleArray. generalize (length array - 1)%nat as n. intros n.
  revert array. induction n as [|n IH]; intros array; simpl; [done|].
  rewrite IH. apply swap_Permutation.
Qed.

Lemma generateNewSpawnColumns_spec gridCols rnd :
  1 ≤ gridCols →
  let queue := generateNewSpawnColumns gridCols rnd in
  Z.of_nat (length queue) = Z.max 1 (gridCols / 4)
  ∧ NoDup queue
  ∧ Forall (λ c, 0 ≤ c < gridCols) queue.
Proof.
  intros Hcols. unfold generateNewSpawnColumns.
  set (available := (λ i, 0 + i) <$> seqZ 0 (Z.max 0 (gridCols - 1) - 0 + 1)).
  assert (Hlen : Z.of_nat (length available) = gridCols).
  { unfold available. rewrite length_fmap, length_seqZ. lia. }
  pose proof (shuffleArray_Permutation rnd available) as Hperm.
  assert (Hquarter : gridCols / 4 < gridCols) by (apply Z.div_lt; lia).
  assert (Hdiv : gridCols * 1 / 4 = gridCols / 4) by (f_equal; lia).
  rewrite Hdiv. unfold slice0.
  replace (Z.min _ _ <? 0) with false by lia.
  split_and!.
  - rewrite length_take, (Permutation_length Hperm). lia.
  - eapply sublist_NoDup; [|apply sublist_take].
    rewrite Hperm. unfold available.
    apply NoDup_fmap_2; [intros x y; lia | apply NoDup_seqZ].
  - apply Forall_take. rewrite Hperm. apply Forall_forall.
    intros c (k & -> & Hk%elem_of_seqZ)%list_elem_of_fmap. lia.
Qed.

(** ** Consequences of the tick equations *)

Lemma tickRefs_index gridRows gridCols rnd a :
  currentSpawningColorIndex (tickRefs gridRows gridCols rnd a)
  = (advanceColor gridCols rnd
       (existsb (atMidpoint gridRows (currentSpawningColorIndex a)) (activeDrops a))
       (currentSpawningColorIndex a) (nextColorSpawnQueue a)).1.
Proof.
  unfold tickRefs. destruct (advanceColor _ _ _ _ _) as [index queue].
  by destruct (spawn _ _ _ _) as [drops queue'].
Qed.

Lemma tickRefs_drops gridRows gridCols rnd a :
  ∃ spawned,
    activeDrops (tickRefs gridRows gridCols rnd a)
    = (advance <$> filter (λ d, keepDrop gridRows gridCols d = true) (activeDrops a))
      ++ spawned
    ∧ Forall (λ d, Drop.row d = 0) spawned.
Proof.
  unfold tickRefs. destruct (advanceColor _ _ _ _ _) as [index queue].
  unfold spawn. destruct queue as [|colToSpawn rest]; simpl.
  - exists []. by rewrite app_nil_r.
  - destruct (colToSpawn <? gridCols); simpl.
    + eexists [_]. split; [done|]. by repeat constructor.
    + exists []. by rewrite app_nil_r.
Qed.

Lemma interval_spec rnd s :
  ∃ g, interval rnd s
       = Some (App.mk (App.gridRows s) (App.gridCols s) g
                 (tickRefs (App.gridRows s) (App.gridCols s) rnd (App.animation s)))
    ∧ ∀ r c, cellAt g r c
             = if inBounds (App.gridRows s) (App.gridCols s) r c
               then Some (tickCell (App.gridRows s) (App.gridCols s) (App.gridState s)
                            (activeDrops (App.animation s)) r c)
               else None.
Proof.
  destruct (tick_spec (App.gridRows s) (App.gridCols s) rnd (App.gridState s)
              (App.animation s)) as (g & Hrun & Hcells).
  exists g. split; [|done]. unfold interval. by rewrite Hrun.
Qed.

(** ** The spectrum *)

Lemma ramp_range stepsPerSegment i :
  0 ≤ i < stepsPerSegment → 0 ≤ Spectrum.ramp stepsPerSegment i ≤ 254.
Proof.
  intros Hi. unfold Spectrum.ramp. split.
  - apply Z.div_pos; lia.
  - assert (i * 255 / stepsPerSegment < 255); [|lia].
    apply Z.div_lt_upper_bound; nia.
Qed.

Lemma length_segment stepsPerSegment mk :
  length (Spectrum.segment stepsPerSegment mk) = Z.to_nat stepsPerSegment.
Proof. unfold Spectrum.segment. by rewrite length_fmap, length_seqZ. Qed.

Lemma segment_valid stepsPerSegment mk :
  (∀ v, 0 ≤ v ≤ 254 → Spectrum.valid_rgb (mk v)) →
  Forall Spectrum.valid_rgb (Spectrum.segment stepsPerSegment mk).
Proof.
  intros Hmk. apply Forall_forall. unfold Spectrum.segment.
  intros c (i & -> & Hi%elem_of_seqZ)%list_elem_of_fmap.
  apply Hmk, ramp_range. lia.
Qed.

(** The number of entries is six times the whole number of steps per
    segment; it is [numSteps] only when 6 divides [numSteps]. *)
Lemma generateSmoothSpectrum_length numSteps :
  6 ≤ numSteps →
  Z.of_nat (length (Spectrum.generateSmoothSpectrum numSteps)) = 6 * (numSteps / 6).
Proof.
  intros Hsteps. unfold Spectrum.generateSmoothSpectrum, slice0.
  assert (1 ≤ numSteps / 6) by (apply Z.div_le_lower_bound; lia).
  assert (6 * (numSteps / 6) ≤ numSteps) by (apply Z.mul_div_le; lia).
  replace (numSteps <? 0) with false by lia.
  rewrite length_take, !length_app, !length_segment. lia.
Qed.

Lemma generateSmoothSpectrum_valid numSteps :
  Forall Spectrum.valid_rgb (Spectrum.generateSmoothSpectrum numSteps).
Proof.
  unfold Spectrum.generateSmoothSpectrum, slice0.
  assert (Hall : ∀ n l, Forall Spectrum.valid_rgb l → Forall Spectrum.valid_rgb (take n l))
    by (intros; by apply Forall_take).
  destruct (numSteps <? 0); apply Hall;
    repeat (apply Forall_app; split); apply segment_valid; intros v Hv; simpl; lia.
Qed.

(** C6.  With seven requested steps the generator returns six entries,
    the last of which is magenta. *)
Theorem spectrum_of_seven_steps :
  Spectrum.generateSmoothSpectrum 7
  = [(255, 0, 0); (255, 255, 0); (0, 255, 0); (0, 255, 255); (0, 0, 255); (255, 0, 255)]
  ∧ length (Spectrum.generateSmoothSpectrum 7) ≠ 7%nat.
Proof. split; [vm_compute; reflexivity | vm_compute; discriminate]. Qed.

(** The 120 entries the animation cycles through are pairwise distinct, so
    that comparing two of them as references or as triples is the same. *)
Lemma spectrum_entries_distinct :
  length SMOOTH_VIBGYOR_COLORS = 120%nat ∧ NoDup SMOOTH_VIBGYOR_COLORS.
Proof.
  split; [vm_compute; reflexivity|].
  apply (bool_decide_unpack (NoDup SMOOTH_VIBGYOR_COLORS)). vm_compute. exact I.
Qed.

(** ** The dimension inputs *)

Lemma clampDimension_range value :
  MIN_DIMENSION ≤ clampDimension value ≤ MAX_DIMENSION.
Proof. unfold clampDimension, MIN_DIMENSION, MAX_DIMENSION. lia. Qed.

(** ** Decimal numerals

    What [parseInt] reads from an integer written in decimal, with or
    without a minus sign. *)

Lemma digitValue_digitChar d : isDigit d → ParseInt.digitValue (digitChar d) = Some d.
Proof. intros H. each_digit d H; reflexivity. Qed.

Lemma trimStart_numeral ds :
  Forall isDigit ds → ParseInt.trimStart (numeral ds) = numeral ds.
Proof.
  destruct 1 as [|d ds H _]; [done|]. each_digit d H; reflexivity.
Qed.

Lemma splitSign_numeral ds :
  Forall isDigit ds → ParseInt.splitSign (numeral ds) = (1, numeral ds).
Proof.
  destruct 1 as [|d ds H _]; [done|]. each_digit d H; reflexivity.
Qed.

Lemma splitRadix_numeral ds :
  Forall isDigit ds → ParseInt.splitRadix (numeral ds) = (10, numeral ds).
Proof.
  destruct 1 as [|d ds H Hds]; [done|].
  each_digit d H; try reflexivity.
  destruct Hds as [|d' ds' H' _]; [done|]. each_digit d' H'; reflexivity.
Qed.

Lemma digits_numeral ds acc :
  Forall isDigit ds →
  ParseInt.digits 10 (numeral ds) acc
  = match ds with
    | [] => acc
    | _ => Some (foldl (λ acc d, acc * 10 + d) (default 0 acc) ds)
    end.
Proof.
  intros Hds. revert acc. induction Hds as [|d ds Hd Hds IH]; intros acc; [done|].
  cbn [numeral ParseInt.digits]. rewrite digitValue_digitChar by done.
  replace (d <? 10) with true by (unfold isDigit in Hd; lia).
  rewrite IH. by destruct ds.
Qed.

Lemma parseInt_numeral (negative : bool) ds :
  ds ≠ [] → Forall isDigit ds →
  ParseInt.parseInt (if negative then String "-" (numeral ds) else numeral ds)
  = Some ((if negative then -1 else 1) * numeralValue ds).
Proof.
  intros Hne Hds. unfold ParseInt.parseInt.
  assert (Hsign : ParseInt.splitSign
                    (ParseInt.trimStart
                       (if negative then String "-" (numeral ds) else numeral ds))
                  = (if negative then -1 else 1, numeral ds)).
  { destruct negative; [reflexivity|].
    by rewrite trimStart_numeral, splitSign_numeral. }
  rewrite Hsign, splitRadix_numeral, digits_numeral by done.
  destruct ds; [done|]. reflexivity.
Qed.

(** An integer typed in decimal is stored clamped to the nearest bound. *)
Lemma onChangeValue_numeral (negative : bool) ds :
  ds ≠ [] → Forall isDigit ds →
  onChangeValue (if negative then String "-" (numeral ds) else numeral ds)
  = Z.max 1 (Z.min 25 ((if negative then -1 else 1) * numeralValue ds)).
Proof.
  intros Hne Hds. unfold onChangeValue. rewrite parseInt_numeral by done.
  unfold clampDimension, orMinimum, MIN_DIMENSION, MAX_DIMENSION.
  destruct (_ =? 0) eqn:H0; lia.
Qed.

Example onChangeValue_examples :
  onChangeValue "100" = 25 ∧ onChangeValue "-3" = 1 ∧ onChangeValue "0" = 1
  ∧ onChangeValue "12" = 12 ∧ onChangeValue "" = 1 ∧ onChangeValue "abc" = 1
  ∧ onChangeValue "7.9" = 7 ∧ onChangeValue "1e5" = 1.
Proof. repeat split; reflexivity. Qed.

Lemma afterInteger_cases rest :
  afterInteger rest →
  rest = EmptyString ∨ ∃ c rest', rest = String c rest' ∧ (c = "." ∨ c = "e" ∨ c = "E")%char.
Proof. destruct rest as [|c rest']; [by left|]. intros Hc. right. by exists c, rest'. Qed.

Lemma digits_after_integer rest acc :
  afterInteger rest → ParseInt.digits 10 rest acc = acc.
Proof.
  intros [-> | (c & rest' & -> & [-> | [-> | ->]])]%afterInteger_cases; reflexivity.
Qed.

Lemma digits_numeralBefore ds rest acc :
  Forall isDigit ds → afterInteger rest →
  ParseInt.digits 10 (numeralBefore ds rest) acc
  = match ds with
    | [] => acc
    | _ => Some (foldl (λ acc d, acc * 10 + d) (default 0 acc) ds)
    end.
Proof.
  intros Hds Hrest. revert acc.
  induction Hds as [|d ds Hd Hds IH]; intros acc; [by apply digits_after_integer|].
  cbn [numeralBefore ParseInt.digits]. rewrite digitValue_digitChar by done.
  replace (d <? 10) with true by (unfold isDigit in Hd; lia).
  rewrite IH. by destruct ds.
Qed.

Lemma numeralBefore_unsigned d ds rest :
  isDigit d →
  ParseInt.splitSign (ParseInt.trimStart (numeralBefore (d :: ds) rest))
  = (1, numeralBefore (d :: ds) rest).
Proof. intros H. each_digit d H; reflexivity. Qed.

Lemma numeralBefore_decimal d ds rest :
  isDigit d → Forall isDigit ds → afterInteger rest →
  ParseInt.splitRadix (numeralBefore (d :: ds) rest) = (10, numeralBefore (d :: ds) rest).
Proof.
  intros H Hds Hrest. each_digit d H; try reflexivity.
  destruct Hds as [|d' ds' H' _].
  - apply afterInteger_cases in Hrest as [-> | (c & rest' & -> & [-> | [-> | ->]])];
      reflexivity.
  - each_digit d' H'; reflexivity.
Qed.

Lemma onChangeValue_numeralBefore (negative : bool) ds rest :
  ds ≠ [] → Forall isDigit ds → afterInteger rest →
  ParseInt.parseInt (withSign negative (numeralBefore ds rest))
  = Some (signOf negative * numeralValue ds)
  ∧ onChangeValue (withSign negative (numeralBefore ds rest))
    = Z.max 1 (Z.min 25 (signOf negative * numeralValue ds)).
Proof.
  intros Hne Hds Hrest.
  assert (Hparse : ParseInt.parseInt (withSign negative (numeralBefore ds rest))
                   = Some (signOf negative * numeralValue ds)).
  { destruct ds as [|d ds]; [done|]. apply Forall_cons in Hds as [Hd Hds].
    unfold ParseInt.parseInt.
    assert (Hsign : ParseInt.splitSign
                      (ParseInt.trimStart (withSign negative (numeralBefore (d :: ds) rest)))
                    = (signOf negative, numeralBefore (d :: ds) rest)).
    { destruct negative; [reflexivity|]. by apply numeralBefore_unsigned. }
    rewrite Hsign, numeralBefore_decimal, digits_numeralBefore by (done || by constructor).
    reflexivity. }
  split; [done|]. unfold onChangeValue. rewrite Hparse.
  unfold clampDimension, orMinimum, MIN_DIMENSION, MAX_DIMENSION.
  destruct (_ =? 0) eqn:H0; lia.
Qed.

Lemma trimStart_indented spaces s :
  ParseInt.trimStart (indented spaces s) = ParseInt.trimStart s.
Proof. induction spaces as [|n IH]; [done|]. exact IH. Qed.

Lemma parseInt_indented spaces s :
  ParseInt.parseInt (indented spaces s) = ParseInt.parseInt s.
Proof. unfold ParseInt.parseInt. by rewrite trimStart_indented. Qed.

Lemma parseInt_startsNoNumber s : startsNoNumber s → ParseInt.parseInt s = None.
Proof.
  destruct s as [|c s']; [done|]. intros (Hspace & Hminus & Hplus & Hdigit).
  destruct c as [[] [] [] [] [] [] [] []];
    try done;
    try (by vm_compute in Hspace);
    try (specialize (Hdigit _ eq_refl); vm_compute in Hdigit; by destruct Hdigit);
    reflexivity.
Qed.

Lemma nearestBound_clamp value : nearestBound value = Z.max 1 (Z.min 25 value).
Proof.
  unfold nearestBound, MIN_DIMENSION, MAX_DIMENSION.
  destruct (value <? 1) eqn:H1; destruct (25 <? value) eqn:H25; lia.
Qed.

(** C9, amended.  Whatever string the field delivers, the value handed
    to the state setter lies in [[1, 25]] and is the dimension stored
    afterwards.  From an input made of spaces, an optional minus sign and
    decimal digits, possibly followed by a fraction or an exponent, the
    integer written by the digits is stored, brought to the nearest bound
    when it is below 1 or above 25: the fraction and the exponent are not
    read.  An input that does not start with a number is stored as 1. *)
Theorem dimension_clamp_integer_part
    (input : string) (rnd : oracle) (s : App.t)
    (spaces : nat) (negative : bool) (ds : list Z) (rest other : string) :
  ds ≠ [] → Forall isDigit ds → afterInteger rest → startsNoNumber other →
  (MIN_DIMENSION ≤ onChangeValue input ≤ MAX_DIMENSION
   ∧ App.gridRows (setGridRows (onChangeValue input) rnd s) = onChangeValue input
   ∧ App.gridCols (setGridCols (onChangeValue input) rnd s) = onChangeValue input)
  ∧ onChangeValue (indented spaces (withSign negative (numeralBefore ds rest)))
    = nearestBound (signOf negative * numeralValue ds)
  ∧ onChangeValue (indented spaces other) = MIN_DIMENSION.
Proof.
  intros Hne Hds Hrest Hother. split; [split; [apply clampDimension_range|split]|split].
  - unfold setGridRows.
    destruct (onChangeValue input =? App.gridRows s) eqn:Heq; [|reflexivity]. symmetry. lia.
  - unfold setGridCols.
    destruct (onChangeValue input =? App.gridCols s) eqn:Heq; [|reflexivity]. symmetry. lia.
  - destruct (onChangeValue_numeralBefore negative ds rest Hne Hds Hrest) as [_ Hstored].
    unfold onChangeValue in *. by rewrite parseInt_indented, Hstored, nearestBound_clamp.
  - unfold onChangeValue. by rewrite parseInt_indented, parseInt_startsNoNumber.
Qed.

Lemma dimension_clamp_integer_part_witness :
  (MIN_DIMENSION ≤ onChangeValue "100" ≤ MAX_DIMENSION
   ∧ App.gridRows (setGridRows (onChangeValue "100") rnd0 (mount rnd0)) = onChangeValue "100"
   ∧ App.gridCols (setGridCols (onChangeValue "100") rnd0 (mount rnd0)) = onChangeValue "100")
  ∧ onChangeValue (indented 2 (withSign false (numeralBefore [1; 2] ".5e3")))
    = nearestBound (signOf false * numeralValue [1; 2])
  ∧ onChangeValue (indented 2 ".5") = MIN_DIMENSION.
Proof.
  apply (dimension_clamp_integer_part "100" rnd0 (mount rnd0) 2 false [1; 2] ".5e3" ".5").
  - discriminate.
  - repeat constructor; unfold isDigit; lia.
  - simpl. by left.
  - vm_compute. repeat split; discriminate.
Defined.

(** C9 as worded fails on a number in scientific notation, which a number
    field accepts: [1e5] is one hundred thousand, whose nearest bound is
    25, and 1 is stored. *)
Lemma dimension_clamp_counterexample :
  scientific [1] [5] = "1e5"%string
  ∧ scientificValue [1] [5] = 100000
  ∧ onChangeValue (scientific [1] [5]) = 1
  ∧ nearestBound (scientificValue [1] [5]) = 25
  ∧ ¬ clampAsStated (scientific [1] [5]) (scientificValue [1] [5]).
Proof. repeat split; try reflexivity. vm_compute. discriminate. Qed.

(** ** Reachable states *)

Lemma run_reachable events s s' :
  reachable s → run events s = Some s' → reachable s'.
Proof.
  unfold run. revert s. induction events as [|e events IH]; intros s Hs; simpl.
  - by intros [= <-].
  - destruct (step e s) as [s1|] eqn:Hstep; simpl; [|done].
    apply IH. by eapply reachable_step.
Qed.

Lemma reachable_dimensions s :
  reachable s →
  MIN_DIMENSION ≤ App.gridRows s ≤ MAX_DIMENSION
  ∧ MIN_DIMENSION ≤ App.gridCols s ≤ MAX_DIMENSION.
Proof.
  induction 1 as [rnd|e s s' Hs IH Hstep].
  - simpl. unfold MIN_DIMENSION, MAX_DIMENSION. lia.
  - destruct e as [rnd|input rnd|input rnd]; simpl in Hstep.
    + unfold interval in Hstep.
      destruct (tick _ _ _ _ _) as [[g a']|]; simpl in Hstep; [|done].
      by injection Hstep as <-.
    + injection Hstep as <-. unfold setGridRows, onChangeValue.
      destruct (_ =? _); [done|]. simpl. split; [apply clampDimension_range | apply IH].
    + injection Hstep as <-. unfold setGridCols, onChangeValue.
      destruct (_ =? _); [done|]. simpl. split; [apply IH | apply clampDimension_range].
Qed.

Lemma refsInvariant_effect gridRows gridCols rnd :
  1 ≤ gridCols → refsInvariant gridCols (App.animation (effect gridRows gridCols rnd)).
Proof.
  intros Hcols. destruct (generateNewSpawnColumns_spec gridCols rnd Hcols) as (_ & _ & Hq).
  unfold effect, refsInvariant. cbn [App.animation activeDrops currentSpawningColorIndex
    nextColorSpawnQueue]. split; [constructor|]. split; [|exact Hq].
  rewrite (proj1 spectrum_entries_distinct). lia.
Qed.

Lemma refsInvariant_tickRefs gridRows gridCols rnd a :
  1 ≤ gridCols → refsInvariant gridCols a →
  refsInvariant gridCols (tickRefs gridRows gridCols rnd a).
Proof.
  intros Hcols (Hdrops & Hidx & Hqueue). unfold tickRefs.
  set (flag := existsb _ _).
  set (survivors := advance <$> filter _ (activeDrops a)).
  assert (Hsurv : Forall (dropInvariant gridCols) survivors).
  { apply Forall_forall.
    intros d' (d & -> & [_ Hd]%list_elem_of_filter)%list_elem_of_fmap.
    rewrite Forall_forall in Hdrops. destruct (Hdrops d Hd) as (Hrow & Hcol & Hcolor).
    unfold dropInvariant, advance. cbn [Drop.row Drop.col Drop.color]. lia. }
  destruct (advanceColor gridCols rnd flag _ _) as [index queue] eqn:Hadv.
  assert (Hnew : (index < length SMOOTH_VIBGYOR_COLORS)%nat
                 ∧ Forall (λ c, 0 ≤ c < gridCols) queue).
  { unfold advanceColor in Hadv.
    pose proof (proj1 spectrum_entries_distinct) as Hlen.
    remember (length SMOOTH_VIBGYOR_COLORS) as n eqn:Hn in *.
    destruct (flag && _); injection Hadv as <- <-; [|done].
    split.
    - apply Nat.mod_upper_bound. lia.
    - by destruct (generateNewSpawnColumns_spec gridCols rnd Hcols) as (_ & _ & Hq). }
  destruct Hnew as [Hindex Hnewqueue].
  unfold spawn. destruct queue as [|colToSpawn rest].
  { by split_and!. }
  apply Forall_cons in Hnewqueue as [Hcol Hrest].
  replace (colToSpawn <? gridCols) with true by lia.
  split_and!; [|done|done].
  apply Forall_app. split; [done|]. constructor; [|constructor].
  unfold dropInvariant. cbn [Drop.row Drop.col Drop.color]. lia.
Qed.

(** Rows and columns of the active drops are never negative, columns of
    drops and of the queue are columns of the grid, and colour indices are
    indices of the spectrum. *)
Lemma reachable_refs s :
  reachable s → refsInvariant (App.gridCols s) (App.animation s).
Proof.
  induction 1 as [rnd|e s s' Hs IH Hstep].
  - by apply refsInvariant_effect.
  - pose proof (reachable_dimensions s Hs) as [_ Hcols]. unfold MIN_DIMENSION in Hcols.
    destruct e as [rnd|input rnd|input rnd]; cbn [step] in Hstep.
    + destruct (interval_spec rnd s) as (g & Hrun & _).
      rewrite Hrun in Hstep. injection Hstep as <-.
      cbn [App.gridCols App.animation]. apply refsInvariant_tickRefs; [lia | done].
    + injection Hstep as <-. unfold setGridRows.
      destruct (_ =? App.gridRows s); [done|].
      apply refsInvariant_effect. cbn [App.gridCols effect]. lia.
    + injection Hstep as <-. unfold setGridCols.
      destruct (_ =? App.gridCols s); [done|].
      apply refsInvariant_effect.
      pose proof (clampDimension_range (ParseInt.parseInt input)) as Hrange.
      unfold MIN_DIMENSION, onChangeValue in *. lia.
Qed.

(** * The animation *)

(** C1.  When a tick changes the spawning colour index, the new index is
    the previous one plus one modulo the length of the spectrum, some
    active drop of the spawning colour had a row of at least
    [floor(gridRows / 2)], and the spawn queue was empty. *)
Theorem color_index_advances_cyclically gridRows gridCols rnd prevGridState a g a' :
  tick gridRows gridCols rnd prevGridState a = Some (g, a') →
  currentSpawningColorIndex a' ≠ currentSpawningColorIndex a →
  currentSpawningColorIndex a'
  = ((currentSpawningColorIndex a + 1) mod length SMOOTH_VIBGYOR_COLORS)%nat
  ∧ (∃ d, d ∈ activeDrops a
          ∧ Drop.color d = currentSpawningColorIndex a
          ∧ gridRows / 2 ≤ Drop.row d)
  ∧ nextColorSpawnQueue a = [].
Proof.
  intros [-> _]%tick_inv. rewrite tickRefs_index. unfold advanceColor.
  destruct (existsb _ (activeDrops a)) eqn:Hflag; simpl; [|done].
  destruct (nextColorSpawnQueue a) as [|colToSpawn queue] eqn:Hqueue; simpl; [|done].
  intros _. split_and!; [done | | done].
  apply existsb_exists in Hflag as (d & Hd & Hmid).
  unfold atMidpoint, halfwayPoint in Hmid.
  apply andb_true_iff in Hmid as [Hcolor%Nat.eqb_eq Hrow%Z.leb_le].
  exists d. by rewrite list_elem_of_In.
Qed.

Lemma color_index_advances_cyclically_witness :
  let a := mkRefs [Drop.mk 1 1 0] 0 [] in
  let a' := mkRefs [Drop.mk 1 2 0; Drop.mk 1 0 1] 1 [] in
  currentSpawningColorIndex a'
  = ((currentSpawningColorIndex a + 1) mod length SMOOTH_VIBGYOR_COLORS)%nat
  ∧ (∃ d, d ∈ activeDrops a
          ∧ Drop.color d = currentSpawningColorIndex a
          ∧ 3 / 2 ≤ Drop.row d)
  ∧ nextColorSpawnQueue a = [].
Proof.
  intros a a'.
  eapply (color_index_advances_cyclically 3 2 rnd0 (emptyGrid 3 2) a _ a').
  - reflexivity.
  - discriminate.
Defined.

Lemma keepDrop_false gridRows gridCols d :
  keepDrop gridRows gridCols d = false
  ↔ gridRows + DROP_LIFE_SPAN ≤ Drop.row d + 1 ∨ gridCols ≤ Drop.col d.
Proof. unfold keepDrop. rewrite andb_false_iff, !Z.ltb_ge. done. Qed.

Lemma advance_survives gridRows gridCols rnd a d :
  d ∈ activeDrops a → 0 ≤ Drop.row d →
  advance d ∈ activeDrops (tickRefs gridRows gridCols rnd a)
  ↔ keepDrop gridRows gridCols d = true.
Proof.
  intros Hd Hrow.
  destruct (tickRefs_drops gridRows gridCols rnd a) as (spawned & -> & Hspawned).
  rewrite elem_of_app, list_elem_of_fmap. split.
  - intros [(d' & Heq & [Hk _]%list_elem_of_filter)|Hin].
    + destruct d, d'. unfold advance in Heq. simpl in Heq.
      injection Heq as -> Hr ->. by replace row with row0 by lia.
    + rewrite Forall_forall in Hspawned. apply Hspawned in Hin. simpl in Hin. lia.
  - intros Hk. left. exists d. split; [done|]. by apply list_elem_of_filter.
Qed.

(** C2, amended.  On every tick, whatever the list of active drops, a
    drop whose row and column are not negative is gone from the active
    list exactly when its advanced row is at least
    [gridRows + DROP_LIFE_SPAN] or its column lies outside
    [[0, gridCols)]. *)
Theorem drop_retirement gridRows gridCols rnd prevGridState a g a' d :
  tick gridRows gridCols rnd prevGridState a = Some (g, a') →
  d ∈ activeDrops a →
  0 ≤ Drop.row d →
  0 ≤ Drop.col d →
  advance d ∉ activeDrops a'
  ↔ (gridRows + DROP_LIFE_SPAN ≤ Drop.row d + 1
     ∨ ¬ (0 ≤ Drop.col d < gridCols)).
Proof.
  intros [-> _]%tick_inv Hd Hrow Hcol.
  rewrite (advance_survives _ _ _ _ _ Hd Hrow).
  pose proof (keepDrop_false gridRows gridCols d) as Hfalse.
  destruct (keepDrop gridRows gridCols d).
  - split; [done|]. intros Hgone. assert (true = false); [|done]. apply Hfalse. lia.
  - split; [|done]. intros _. destruct (proj1 Hfalse eq_refl); [by left | right; lia].
Qed.

(** A drop right of a grid of two columns is removed by the column test
    alone: its advanced row 1 is far above [gridRows + DROP_LIFE_SPAN]. *)
Lemma drop_retirement_witness :
  let d := Drop.mk 5 0 0 in
  advance d ∉ activeDrops (mkRefs [Drop.mk 1 1 1] 1 [])
  ↔ (3 + DROP_LIFE_SPAN ≤ Drop.row d + 1 ∨ ¬ (0 ≤ Drop.col d < 2)).
Proof.
  intros d.
  eapply (drop_retirement 3 2 rnd0 (emptyGrid 3 2)
            (mkRefs [d; Drop.mk 1 0 1] 1 [])).
  - vm_compute. reflexivity.
  - by left.
  - simpl. lia.
  - simpl. lia.
Defined.

(** C2 as worded fails twenty-two ticks after mounting: the first drop
    is at row 21, its advanced row 22 equals [gridRows + DROP_LIFE_SPAN]
    without exceeding it, and the next tick removes the drop. *)
Lemma retirement_counterexample :
  ∃ s s',
    reachable s
    ∧ App.gridRows s = 15 ∧ App.gridCols s = 20
    ∧ interval rnd0 s = Some s'
    ∧ Drop.mk 1 21 0 ∈ activeDrops (App.animation s)
    ∧ ¬ retirementAsStated 15 20 (Drop.mk 1 21 0) (App.animation s').
Proof.
  destruct (run (replicate 22 (Tick rnd0)) (mount rnd0)) as [s|] eqn:Hrun;
    [|vm_compute in Hrun; discriminate].
  destruct (interval rnd0 s) as [s'|] eqn:Hnext; last first.
  { destruct (interval_spec rnd0 s) as (g & Hsome & _). congruence. }
  exists s, s'.
  split; [eapply run_reachable; [apply reachable_mount | exact Hrun]|].
  vm_compute in Hrun. injection Hrun as <-.
  vm_compute in Hnext. injection Hnext as <-.
  cbn [App.gridRows App.gridCols App.animation activeDrops].
  split; [reflexivity|]. split; [reflexivity|]. split; [reflexivity|]. split.
  - by left.
  - intros [Hgone _]. unfold DROP_LIFE_SPAN in Hgone.
    destruct Hgone as [Hrow|Hcol]; [|simpl in Hrow; lia | simpl in Hcol; lia].
    apply (bool_decide_unpack _). vm_compute. exact I.
Qed.

(** C3.  A slot inside the grid that holds a coloured cell at the start of
    the tick and that no trail of the tick repaints holds the same cell
    with its life one lower when the life was positive, and is [null] when
    the life had reached zero. *)
Theorem decay_without_repaint gridRows gridCols rnd prevGridState a g a' r c v :
  tick gridRows gridCols rnd prevGridState a = Some (g, a') →
  inBounds gridRows gridCols r c = true →
  cellAt prevGridState r c = Some (colored v) →
  repainted gridRows gridCols (activeDrops a) r c = false →
  (0 < Cell.life v →
   cellAt g r c
   = Some (colored (Cell.mk (Cell.r v) (Cell.g v) (Cell.b v) (Cell.life v - 1))))
  ∧ (Cell.life v ≤ 0 → cellAt g r c = Some null).
Proof.
  intros [_ Hcells]%tick_inv Hb Hprev Hclean.
  rewrite Hcells, Hb. unfold tickCell.
  rewrite overlay_not_repainted by done.
  unfold copiedCell. rewrite Hprev. unfold decayedCell, lifePositive, lifeExhausted.
  simpl. split; intros Hlife.
  - by replace (0 <? Cell.life v) with true by lia.
  - replace (0 <? Cell.life v) with false by lia.
    by replace (Cell.life v <=? 0) with true by lia.
Qed.

Lemma decay_without_repaint_witness :
  let v := Cell.mk 255 0 0 3 in
  let g := [[colored (Cell.mk 255 0 0 2); emptyObject]; [emptyObject; emptyObject]] in
  (0 < Cell.life v →
   cellAt g 0 0
   = Some (colored (Cell.mk (Cell.r v) (Cell.g v) (Cell.b v) (Cell.life v - 1))))
  ∧ (Cell.life v ≤ 0 → cellAt g 0 0 = Some null).
Proof.
  intros v g.
  apply (decay_without_repaint 2 2 rnd0 [[colored v; null]; [null; null]]
           (mkRefs [] 0 []) g (mkRefs [] 0 []) 0 0 v); reflexivity.
Defined.

(** C4.  Split the active drops at any drop [d].  Painting the trail of
    [d] stores, in every slot of the column of [d] from its row upward over
    [DROP_LIFE_SPAN] rows that lies inside the grid, the colour of [d] with
    life [DROP_LIFE_SPAN] minus the distance to the head row, whatever the
    slot held; the head slot gets life 7; no other slot changes; and the
    value is still there at the end of the tick unless a later drop of the
    list paints the same slot. *)
Theorem trail_paint gridRows gridCols rnd prevGridState a g a' before d after :
  tick gridRows gridCols rnd prevGridState a = Some (g, a') →
  activeDrops a = before ++ d :: after →
  ∃ g0 g1,
    (copied ← copyGrid gridRows gridCols prevGridState;
     decayed ← decay gridRows gridCols copied;
     paintAll gridRows gridCols before decayed) = Some g0
    ∧ paintTrail gridRows gridCols d g0 = Some g1
    ∧ paintAll gridRows gridCols after g1 = Some g
    ∧ (∀ r cr cg cb,
         spectrumAt (Drop.color d) = (cr, cg, cb) →
         Z.max 0 (Drop.row d - DROP_LIFE_SPAN + 1) ≤ r ≤ Drop.row d →
         inBounds gridRows gridCols r (Drop.col d) = true →
         let painted := colored (Cell.mk cr cg cb (DROP_LIFE_SPAN - (Drop.row d - r))) in
         cellAt g1 r (Drop.col d) = Some painted
         ∧ (repainted gridRows gridCols after r (Drop.col d) = false →
            cellAt g r (Drop.col d) = Some painted))
    ∧ (inBounds gridRows gridCols (Drop.row d) (Drop.col d) = true →
       lifeOf <$> cellAt g1 (Drop.row d) (Drop.col d) = Some (Some 7))
    ∧ (∀ r c, covers gridRows gridCols d r c = false → cellAt g1 r c = cellAt g0 r c).
Proof.
  intros Hrun Hsplit. unfold tick in Hrun.
  destruct (copyGrid_spec gridRows gridCols prevGridState) as (gc & Hcopy & Hgc).
  assert (Hsc : hasShape gridRows gridCols gc) by (eapply hasShape_cells; apply Hgc).
  destruct (decay_spec gridRows gridCols gc Hsc) as (gd & Hdecay & Hgd).
  assert (Hsd : hasShape gridRows gridCols gd).
  { eapply (hasShape_pointwise _ _ (λ _ _, decayedCell)); [apply Hgd | done]. }
  destruct (paintAll_spec gridRows gridCols before gd Hsd) as (g0 & Hbefore & Hg0).
  assert (Hs0 : hasShape gridRows gridCols g0).
  { eapply hasShape_pointwise; [apply Hg0 | done]. }
  destruct (paintTrail_spec gridRows gridCols d g0 Hs0) as (g1 & Hd & Hg1).
  assert (Hs1 : hasShape gridRows gridCols g1).
  { eapply hasShape_pointwise; [apply Hg1 | done]. }
  destruct (paintAll_spec gridRows gridCols after g1 Hs1) as (g2 & Hafter & Hg2).
  rewrite Hcopy in Hrun. simpl in Hrun. rewrite Hdecay in Hrun. simpl in Hrun.
  rewrite sweep_spec, Hsplit in Hrun. unfold paintAll in Hrun.
  rewrite forM_app in Hrun. fold (paintAll gridRows gridCols before gd) in Hrun.
  rewrite Hbefore in Hrun. simpl in Hrun. rewrite Hd in Hrun. simpl in Hrun.
  fold (paintAll gridRows gridCols after g1) in Hrun. rewrite Hafter in Hrun.
  simpl in Hrun.
  destruct (advanceColor _ _ _ _ _) as [index queue].
  destruct (spawn _ _ _ _) as [drops queue']. injection Hrun as <- <-.
  assert (Hcov : ∀ r, Z.max 0 (Drop.row d - DROP_LIFE_SPAN + 1) ≤ r ≤ Drop.row d →
                      inBounds gridRows gridCols r (Drop.col d) = true →
                      cellAt g1 r (Drop.col d) = Some (trailCell d r)).
  { intros r Hr Hb. rewrite Hg1.
    destruct (proj2 (Hs0 r (Drop.col d)) Hb) as [x ->]. simpl.
    replace (covers gridRows gridCols d r (Drop.col d)) with true; [done|].
    unfold covers, paintGuard. unfold inBounds in Hb. lia. }
  exists g0, g1. split_and!.
  - rewrite Hcopy. simpl. rewrite Hdecay. done.
  - done.
  - done.
  - intros r cr cg cb Hrgb Hr Hb painted.
    assert (Hcell : trailCell d r = painted).
    { unfold trailCell, painted. by rewrite Hrgb. }
    rewrite <- Hcell. split; [by apply Hcov|].
    intros Hclean. rewrite Hg2, (Hcov r Hr Hb). simpl.
    by rewrite overlay_not_repainted.
  - intros Hb. rewrite Hcov; [| unfold DROP_LIFE_SPAN, inBounds in *; lia | done].
    simpl. unfold trailCell. destruct (spectrumAt (Drop.color d)) as [[cr cg] cb].
    simpl. do 2 f_equal. unfold DROP_LIFE_SPAN. lia.
  - intros r c Hc. rewrite Hg1, Hc. by destruct (cellAt g0 r c).
Qed.

Lemma trail_paint_witness :
  let d := Drop.mk 1 1 0 in
  ∃ g0 g1,
    paintTrail 3 2 d g0 = Some g1
    ∧ cellAt g1 0 1 = Some (colored (Cell.mk 255 0 0 6))
    ∧ cellAt g1 1 1 = Some (colored (Cell.mk 255 0 0 7)).
Proof.
  intros d.
  destruct (trail_paint 3 2 rnd0 (emptyGrid 3 2) (mkRefs [d] 0 [])
              [[emptyObject; colored (Cell.mk 255 0 0 6)];
               [emptyObject; colored (Cell.mk 255 0 0 7)];
               [emptyObject; emptyObject]]
              (mkRefs [Drop.mk 1 2 0; Drop.mk 1 0 1] 1 []) [] d []
              eq_refl eq_refl)
    as (g0 & g1 & _ & Hd & _ & Hcells & _).
  exists g0, g1. split; [exact Hd|]. split.
  - apply (Hcells 0 255 0 0); [reflexivity | unfold DROP_LIFE_SPAN; simpl; lia | reflexivity].
  - apply (Hcells 1 255 0 0); [reflexivity | unfold DROP_LIFE_SPAN; simpl; lia | reflexivity].
Defined.

Lemma spectrumAt_first : spectrumAt 0 = (255, 0, 0).
Proof. vm_compute. reflexivity. Qed.

Lemma spectrum_first : SMOOTH_VIBGYOR_COLORS !! 0%nat = Some (255, 0, 0).
Proof. vm_compute. reflexivity. Qed.

Lemma tickRefs_first_spawn gridRows gridCols rnd index colToSpawn rest :
  colToSpawn < gridCols →
  tickRefs gridRows gridCols rnd (mkRefs [] index (colToSpawn :: rest))
  = mkRefs [Drop.mk colToSpawn 0 index] index rest.
Proof.
  intros Hcol. unfold tickRefs, advanceColor, spawn.
  cbn [activeDrops currentSpawningColorIndex nextColorSpawnQueue existsb andb
       filter list_filter fmap list_fmap app].
  by replace (colToSpawn <? gridCols) with true by lia.
Qed.

Lemma scenario_first_ticks rndMount rnd1 rnd2 :
  ∃ s1 s2 c0,
    0 ≤ c0 < 20
    ∧ interval rnd1 (mount rndMount) = Some s1
    ∧ activeDrops (App.animation s1) = [Drop.mk c0 0 0]
    ∧ interval rnd2 s1 = Some s2
    ∧ Drop.mk c0 1 0 ∈ activeDrops (App.animation s2)
    ∧ cellAt (App.gridState s2) 0 c0 = Some (colored (Cell.mk 255 0 0 7)).
Proof.
  destruct (generateNewSpawnColumns_spec 20 rndMount) as (Hlen & _ & Hrange); [lia|].
  destruct (interval_spec rnd1 (mount rndMount)) as (g1 & Hrun1 & _).
  unfold mount, effect in Hrun1.
  cbn [App.gridRows App.gridCols App.gridState App.animation] in Hrun1.
  cbv zeta in Hlen, Hrange.
  destruct (generateNewSpawnColumns 20 rndMount) as [|c0 rest] eqn:Hqueue.
  { cbn [length] in Hlen. lia. }
  apply Forall_cons in Hrange as [Hc0 _].
  rewrite tickRefs_first_spawn in Hrun1 by lia.
  set (s1 := App.mk 15 20 g1 (mkRefs [Drop.mk c0 0 0] 0 rest)) in *.
  destruct (interval_spec rnd2 s1) as (g2 & Hrun2 & Hcells2).
  eexists s1, _, c0. split; [done|]. split.
  { unfold mount, effect. rewrite Hqueue. exact Hrun1. }
  split; [done|]. split; [exact Hrun2|].
  cbn [App.gridRows App.gridCols App.gridState App.animation s1 activeDrops] in *.
  split.
  - destruct (tickRefs_drops 15 20 rnd2 (mkRefs [Drop.mk c0 0 0] 0 rest))
      as (spawned & -> & _).
    apply elem_of_app. left. cbn [activeDrops]. rewrite filter_cons.
    rewrite decide_True; [by left|].
    unfold keepDrop, DROP_LIFE_SPAN. cbn [Drop.row Drop.col]. lia.
  - rewrite Hcells2.
    replace (inBounds 15 20 0 c0) with true by (unfold inBounds; lia).
    f_equal. unfold tickCell. cbn [overlay].
    replace (covers 15 20 (Drop.mk c0 0 0) 0 c0) with true.
    + unfold trailCell. cbn [Drop.color Drop.row]. by rewrite spectrumAt_first.
    + unfold covers, paintGuard, DROP_LIFE_SPAN. cbn [Drop.row Drop.col]. lia.
Qed.

(** C5, amended.  Whatever the random draws, the scenario holds with the
    slot at row 0 holding life 7 after the second tick. *)
Theorem scenario_two_ticks rndMount rnd1 rnd2 : scenario 7 rndMount rnd1 rnd2.
Proof.
  destruct (scenario_first_ticks rndMount rnd1 rnd2)
    as (s1 & s2 & c0 & _ & Hrun1 & Hdrops1 & Hrun2 & Hdrops2 & Hcell).
  exists s1, s2, c0, (Cell.mk 255 0 0 7).
  split_and!; [exact Hrun1 | exact Hdrops1 | exact Hrun2 | exact Hdrops2 | exact Hcell
              | exact spectrum_first | reflexivity].
Qed.

(** C5 as worded (life 6 after the second tick) fails. *)
Lemma scenario_counterexample : ¬ scenario 6 rnd0 rnd0 rnd0.
Proof.
  intros (s1 & s2 & c0 & v & Hrun1 & Hdrops1 & Hrun2 & _ & Hcell & _ & Hlife).
  destruct (scenario_first_ticks rnd0 rnd0 rnd0)
    as (t1 & t2 & c1 & _ & Ht1 & Hd1 & Ht2 & _ & Ht2cell).
  rewrite Hrun1 in Ht1. injection Ht1 as <-.
  rewrite Hdrops1 in Hd1. injection Hd1 as <-.
  rewrite Hrun2 in Ht2. injection Ht2 as <-.
  rewrite Hcell in Ht2cell. injection Ht2cell as ->.
  cbn [Cell.life] in Hlife. lia.
Qed.

Lemma cellInvariant_spread x : cellInvariant x → cellInvariant (spread x).
Proof. by destruct x. Qed.

Lemma cellInvariant_decayed x : cellInvariant x → cellInvariant (decayedCell x).
Proof.
  destruct x as [| |v]; [done | done |]. unfold decayedCell, lifePositive, lifeExhausted.
  simpl. intros Hv. destruct (0 <? Cell.life v) eqn:Hpos; simpl; [lia|].
  by destruct (Cell.life v <=? 0).
Qed.

Lemma cellInvariant_overlay gridRows gridCols drops r c x :
  cellInvariant x → cellInvariant (overlay gridRows gridCols drops r c x).
Proof.
  revert x. induction drops as [|d drops IH]; intros x Hx; simpl; [done|].
  apply IH. destruct (covers gridRows gridCols d r c) eqn:Hc; [|done].
  unfold trailCell. destruct (spectrumAt (Drop.color d)) as [[cr cg] cb]. simpl.
  unfold covers in Hc. unfold DROP_LIFE_SPAN in *. lia.
Qed.

Lemma cellInvariant_tick gridRows gridCols rnd prevGridState a g a' :
  (∀ r c x, cellAt prevGridState r c = Some x → cellInvariant x) →
  tick gridRows gridCols rnd prevGridState a = Some (g, a') →
  ∀ r c x, cellAt g r c = Some x → cellInvariant x.
Proof.
  intros Hprev [_ Hcells]%tick_inv r c x. rewrite Hcells.
  destruct (inBounds gridRows gridCols r c); [|done]. intros [= <-].
  unfold tickCell. apply cellInvariant_overlay, cellInvariant_decayed.
  unfold copiedCell. destruct (cellAt prevGridState r c) as [y|] eqn:Hy; [|done].
  apply cellInvariant_spread. by eapply Hprev.
Qed.

Lemma cellInvariant_effect gridRows gridCols rnd r c x :
  cellAt (App.gridState (effect gridRows gridCols rnd)) r c = Some x → cellInvariant x.
Proof.
  simpl. rewrite cellAt_emptyGrid. destruct (_ && _); [|done]. by intros [= <-].
Qed.

(** C7, amended.  In every reachable state, a slot that holds an object
    [{ r, g, b, life }] has [0 ≤ life ≤ DROP_LIFE_SPAN]. *)
Theorem reachable_cells_life s r c v :
  reachable s →
  cellAt (App.gridState s) r c = Some (colored v) →
  0 ≤ Cell.life v ≤ DROP_LIFE_SPAN.
Proof.
  intros Hs. revert r c v.
  assert (Hinv : ∀ r c x, cellAt (App.gridState s) r c = Some x → cellInvariant x).
  { induction Hs as [rnd|e s s' Hs IH Hstep].
    - intros r c x. apply cellInvariant_effect.
    - destruct e as [rnd|input rnd|input rnd]; simpl in Hstep.
      + unfold interval in Hstep.
        destruct (tick _ _ _ _ _) as [[g a']|] eqn:Hrun; simpl in Hstep; [|done].
        injection Hstep as <-. simpl. by eapply cellInvariant_tick.
      + injection Hstep as <-. unfold setGridRows.
        destruct (_ =? _); [done|]. intros r c x. apply cellInvariant_effect.
      + injection Hstep as <-. unfold setGridCols.
        destruct (_ =? _); [done|]. intros r c x. apply cellInvariant_effect. }
  intros r c v Hv. apply (Hinv r c (colored v) Hv).
Qed.

Lemma reachable_cells_life_witness :
  0 ≤ Cell.life (Cell.mk 255 0 0 7) ≤ DROP_LIFE_SPAN.
Proof.
  apply (reachable_cells_life
           (App.mk 1 1 [[colored (Cell.mk 255 0 0 7)]]
              (mkRefs [Drop.mk 0 1 0; Drop.mk 0 0 1] 1 []))
           0 0 (Cell.mk 255 0 0 7)).
  - apply (run_reachable
             [RowsInput "1" rnd0; ColsInput "1" rnd0; Tick rnd0; Tick rnd0]
             (mount rnd0)); [apply reachable_mount | vm_compute; reflexivity].
  - reflexivity.
Defined.

(** C7 as worded fails: nine ticks after mounting, the slot the first
    drop started from holds an object whose life is 0, and the bottom slot
    of the same column holds the object without properties that the spread
    of [null] builds. *)
Lemma reachable_cells_counterexample :
  ∃ s c x,
    reachable s
    ∧ cellAt (App.gridState s) 0 c = Some x ∧ ¬ cellAsSpecified x
    ∧ cellAt (App.gridState s) 14 c = Some emptyObject.
Proof.
  destruct (run (replicate 9 (Tick rnd0)) (mount rnd0)) as [s|] eqn:Hrun;
    [|vm_compute in Hrun; discriminate].
  assert (Hs : reachable s) by (eapply run_reachable; [apply reachable_mount | exact Hrun]).
  exists s, 1, (colored (Cell.mk 255 0 0 0)). split; [exact Hs|].
  clear Hs. vm_compute in Hrun. injection Hrun as <-.
  split; [reflexivity|]. split; [|reflexivity].
  intros [Hnull|(v & [= <-] & Hlife)]; [discriminate | simpl in Hlife; lia].
Qed.

(** ** The reset on a change of dimension *)

(** C8.  A step that changes a dimension of a reachable state leaves no
    active drop, the colour index 0, a spawn queue drawn for the new width
    (distinct columns of the new grid, [max(1, floor(gridCols / 4))] of
    them), and a grid of exactly the new dimensions whose slots are all
    [null]. *)
Theorem resize_resets e s s' :
  reachable s →
  step e s = Some s' →
  (App.gridRows s', App.gridCols s') ≠ (App.gridRows s, App.gridCols s) →
  activeDrops (App.animation s') = []
  ∧ currentSpawningColorIndex (App.animation s') = 0%nat
  ∧ (∃ rnd, nextColorSpawnQueue (App.animation s')
            = generateNewSpawnColumns (App.gridCols s') rnd)
  ∧ Z.of_nat (length (nextColorSpawnQueue (App.animation s')))
    = Z.max 1 (App.gridCols s' / 4)
  ∧ NoDup (nextColorSpawnQueue (App.animation s'))
  ∧ Forall (λ c, 0 ≤ c < App.gridCols s') (nextColorSpawnQueue (App.animation s'))
  ∧ Z.of_nat (length (App.gridState s')) = App.gridRows s'
  ∧ Forall (λ line, Z.of_nat (length line) = App.gridCols s'
                    ∧ Forall (λ x, x = null) line) (App.gridState s').
Proof.
  intros Hs Hstep Hdims.
  assert (Hs' : reachable s') by by eapply reachable_step.
  apply reachable_dimensions in Hs' as [Hrows Hcols].
  unfold MIN_DIMENSION, MAX_DIMENSION in *.
  assert (Heffect : ∃ rnd, s' = effect (App.gridRows s') (App.gridCols s') rnd).
  { destruct e as [rnd|input rnd|input rnd]; simpl in Hstep.
    - unfold interval in Hstep.
      destruct (tick _ _ _ _ _) as [[g a']|]; simpl in Hstep; [|done].
      injection Hstep as <-. done.
    - injection Hstep as <-. unfold setGridRows in *.
      destruct (_ =? _); [done|]. by exists rnd.
    - injection Hstep as <-. unfold setGridCols in *.
      destruct (_ =? _); [done|]. by exists rnd. }
  destruct Heffect as [rnd Heq].
  remember (App.gridRows s') as rows eqn:Erows.
  remember (App.gridCols s') as cols eqn:Ecols.
  clear Erows Ecols Hdims Hstep. subst s'.
  destruct (generateNewSpawnColumns_spec cols rnd) as (Hlen & Hnd & Hrange); [lia|].
  cbn [effect App.animation App.gridState activeDrops
       currentSpawningColorIndex nextColorSpawnQueue].
  split; [reflexivity|]. split; [reflexivity|]. split; [by exists rnd|].
  split; [exact Hlen|]. split; [exact Hnd|]. split; [exact Hrange|].
  unfold emptyGrid. split.
  - rewrite length_replicate. lia.
  - apply Forall_replicate. split.
    + rewrite length_replicate. lia.
    + by apply Forall_replicate.
Qed.

Lemma resize_resets_witness :
  let s' := effect 3 5 rnd0 in
  activeDrops (App.animation s') = []
  ∧ currentSpawningColorIndex (App.animation s') = 0%nat
  ∧ (∃ rnd, nextColorSpawnQueue (App.animation s')
            = generateNewSpawnColumns (App.gridCols s') rnd)
  ∧ Z.of_nat (length (nextColorSpawnQueue (App.animation s')))
    = Z.max 1 (App.gridCols s' / 4)
  ∧ NoDup (nextColorSpawnQueue (App.animation s'))
  ∧ Forall (λ c, 0 ≤ c < App.gridCols s') (nextColorSpawnQueue (App.animation s'))
  ∧ Z.of_nat (length (App.gridState s')) = App.gridRows s'
  ∧ Forall (λ line, Z.of_nat (length line) = App.gridCols s'
                    ∧ Forall (λ x, x = null) line) (App.gridState s').
Proof.
  intros s'.
  apply (resize_resets (ColsInput "5" rnd0)
           (App.mk 3 2
              [[emptyObject; colored (Cell.mk 255 0 0 7)];
               [emptyObject; emptyObject];
               [emptyObject; emptyObject]]
              (mkRefs [Drop.mk 1 1 0] 0 []))).
  - apply (run_reachable
             [RowsInput "3" rnd0; ColsInput "2" rnd0; Tick rnd0; Tick rnd0]
             (mount rnd0)); [apply reachable_mount | vm_compute; reflexivity].
  - vm_compute. reflexivity.
  - vm_compute. discriminate.
Defined.

(** The scenario of C8: three ticks into the 15 by 20 animation, the two
    inputs are set to 5. *)
Example resize_15x20_to_5x5 :
  ∃ queue,
    run [Tick rnd0; Tick rnd0; Tick rnd0; RowsInput "5" rnd0; ColsInput "5" rnd0]
        (mount rnd0)
    = Some (App.mk 5 5 (replicate 5 (replicate 5 null)) (mkRefs [] 0 queue)).
Proof. eexists. vm_compute. reflexivity. Qed.

(** The checked accessors do take the out-of-range exit, and the trail
    loop without the guard of line 163 would take it. *)
Example accesses_outside_fail :
  writeCell (emptyGrid 2 2) 2 0 null = None
  ∧ readCell (emptyGrid 2 2) 0 (-1) = None
  ∧ rowLength [] 0 = None
  ∧ forM (λ r g, writeCell g r 0 (trailCell (Drop.mk 0 3 0) r))
         (trailRows (Drop.mk 0 3 0)) (emptyGrid 2 2) = None
  ∧ paintTrail 2 2 (Drop.mk 0 3 0) (emptyGrid 2 2)
    = Some [[colored (Cell.mk 255 0 0 4); null]; [colored (Cell.mk 255 0 0 5); null]].
Proof. repeat split; vm_compute; reflexivity. Qed.

(** C10.  Whatever the previous snapshot, the drops and the queue are,
    every indexed access of a tick falls inside the array it indexes: the
    checked tick never takes the out-of-range exit, and the new snapshot
    has exactly [gridRows] by [gridCols] slots. *)
Theorem tick_accesses_in_bounds gridRows gridCols rnd (prevGridState : grid) (a : refs) :
  ∃ g a', tick gridRows gridCols rnd prevGridState a = Some (g, a')
          ∧ hasShape gridRows gridCols g.
Proof.
  destruct (tick_spec gridRows gridCols rnd prevGridState a) as (g & Hrun & Hcells).
  exists g, (tickRefs gridRows gridCols rnd a). split; [done|].
  eapply hasShape_cells. apply Hcells.
Qed.

(** * Further properties *)

(** ** The spectrum generator *)

Lemma length_colors stepsPerSegment (l := Z.to_nat stepsPerSegment)
    mk1 mk2 mk3 mk4 mk5 mk6 :
  length (Spectrum.segment stepsPerSegment mk1 ++ Spectrum.segment stepsPerSegment mk2
          ++ Spectrum.segment stepsPerSegment mk3 ++ Spectrum.segment stepsPerSegment mk4
          ++ Spectrum.segment stepsPerSegment mk5 ++ Spectrum.segment stepsPerSegment mk6)
  = (6 * l)%nat.
Proof. rewrite !length_app, !length_segment. lia. Qed.

(** X1.  The number of entries of [generateSmoothSpectrum numSteps]: never
    more than a non-negative [numSteps], short of it unless [numSteps < 6]
    or 6 divides [numSteps]; for a negative [numSteps] the [slice] counts
    from the end of the six corner colours. *)
Theorem spectrum_entry_count numSteps :
  Z.of_nat (length (Spectrum.generateSmoothSpectrum numSteps))
  = if numSteps <? 0 then Z.max 0 (6 + numSteps)
    else Z.min numSteps (6 * Z.max 1 (numSteps / 6)).
Proof.
  unfold Spectrum.generateSmoothSpectrum, slice0.
  destruct (numSteps <? 0) eqn:Hneg.
  - assert (numSteps / 6 < 0) by (apply Z.div_lt_upper_bound; lia).
    rewrite length_take, length_colors. lia.
  - assert (0 ≤ numSteps / 6) by (apply Z.div_pos; lia).
    rewrite length_take, length_colors. lia.
Qed.

(** *** The ramp in double precision *)

Lemma rampCheck_spec quotient stepsPerSegment inexact indices previous :
  rampCheck quotient stepsPerSegment inexact previous indices = true →
  Forall (λ i, previous < rampBy quotient i ≤ 254
               ∧ (inexact = false → rampBy quotient i = Spectrum.ramp stepsPerSegment i))
    indices
  ∧ ∀ before i after, indices = before ++ i :: after →
      Forall (λ j, rampBy quotient i < rampBy quotient j) after.
Proof.
  revert previous. induction indices as [|a indices IH]; intros previous Hcheck.
  { split; [constructor|]. by intros [|? ?] ? ? ?. }
  cbn [rampCheck] in Hcheck. cbv zeta in Hcheck.
  apply andb_prop in Hcheck as [[[Hprev Hmax]%andb_prop Hexact]%andb_prop Hrest].
  destruct (IH _ Hrest) as [Hall Hsorted]. split.
  - constructor.
    + split; [lia|]. intros ->. simpl in Hexact. lia.
    + eapply Forall_impl; [exact Hall|]. intros j [Hj Hj']. split; [lia | done].
  - intros [|b before] i after [= -> ->].
    + eapply Forall_impl; [exact Hall|]. intros j [Hj _]. lia.
    + by eapply Hsorted.
Qed.

(** The check, run for every segment of up to 255 steps. *)
Lemma segmentCheck_holds stepsPerSegment :
  1 ≤ stepsPerSegment ≤ 255 → segmentCheck stepsPerSegment = true.
Proof.
  intros Hsteps.
  assert (Htable : forallb segmentCheck (seqZ 1 255) = true) by (vm_compute; reflexivity).
  apply (proj1 (forallb_forall _ _) Htable), list_elem_of_In, elem_of_seqZ. lia.
Qed.

Lemma rampDouble_checked stepsPerSegment i :
  1 ≤ stepsPerSegment ≤ 255 → 0 ≤ i < stepsPerSegment →
  0 ≤ SpectrumDouble.ramp stepsPerSegment i ≤ 254
  ∧ (stepsPerSegment ∉ inexactSteps →
     SpectrumDouble.ramp stepsPerSegment i = Spectrum.ramp stepsPerSegment i)
  ∧ ∀ j, i < j < stepsPerSegment →
      SpectrumDouble.ramp stepsPerSegment i < SpectrumDouble.ramp stepsPerSegment j.
Proof.
  intros Hsteps Hi.
  destruct (rampCheck_spec _ _ _ _ _ (segmentCheck_holds _ Hsteps)) as [Hall Hsorted].
  rewrite Forall_forall in Hall.
  destruct (Hall i) as [Hrange Hexact]; [apply elem_of_seqZ; lia|].
  split; [|split].
  - unfold SpectrumDouble.ramp, rampBy in *. lia.
  - intros Hnot. apply Hexact. apply not_true_is_false. intros Hin.
    apply existsb_exists in Hin as (x & Hx%list_elem_of_In & Heq).
    apply Z.eqb_eq in Heq as <-. done.
  - intros j Hj.
    assert (Hsplit : seqZ 0 stepsPerSegment
                     = seqZ 0 i ++ i :: seqZ (i + 1) (stepsPerSegment - i - 1)).
    { replace stepsPerSegment with (i + (stepsPerSegment - i)) at 1 by lia.
      rewrite seqZ_app, (seqZ_cons (0 + i)) by lia. reflexivity. }
    specialize (Hsorted _ _ _ Hsplit). rewrite Forall_forall in Hsorted.
    apply (Hsorted j). apply elem_of_seqZ. lia.
Qed.

Lemma rampDouble_range stepsPerSegment i :
  1 ≤ stepsPerSegment ≤ 255 → 0 ≤ i < stepsPerSegment →
  0 ≤ SpectrumDouble.ramp stepsPerSegment i ≤ 254.
Proof. intros Hsteps Hi. by destruct (rampDouble_checked _ _ Hsteps Hi). Qed.

Lemma rampDouble_increasing stepsPerSegment i j :
  1 ≤ stepsPerSegment ≤ 255 → 0 ≤ i < j → j < stepsPerSegment →
  SpectrumDouble.ramp stepsPerSegment i < SpectrumDouble.ramp stepsPerSegment j.
Proof.
  intros Hsteps Hij Hj.
  destruct (rampDouble_checked stepsPerSegment i Hsteps) as (_ & _ & Hlater); [lia|].
  apply Hlater. lia.
Qed.

(** Where the exact ramp is the double one: everywhere up to 255 steps a
    segment, the seven lengths of [inexactSteps] apart. *)
Lemma rampDouble_exact stepsPerSegment i :
  1 ≤ stepsPerSegment ≤ 255 → stepsPerSegment ∉ inexactSteps →
  0 ≤ i < stepsPerSegment →
  SpectrumDouble.ramp stepsPerSegment i = Spectrum.ramp stepsPerSegment i.
Proof.
  intros Hsteps Hexact Hi.
  destruct (rampDouble_checked _ _ Hsteps Hi) as (_ & Heq & _). by apply Heq.
Qed.

Lemma generateSmoothSpectrum_exact numSteps :
  numSteps < 1536 → Z.max 1 (numSteps / 6) ∉ inexactSteps →
  SpectrumDouble.generateSmoothSpectrum numSteps = Spectrum.generateSmoothSpectrum numSteps.
Proof.
  intros Hsteps Hexact.
  unfold SpectrumDouble.generateSmoothSpectrum, Spectrum.generateSmoothSpectrum.
  set (n := Z.max 1 (numSteps / 6)) in *.
  assert (Hn : 1 ≤ n ≤ 255).
  { unfold n. assert (numSteps / 6 < 256) by (apply Z.div_lt_upper_bound; lia). lia. }
  assert (Hseg : ∀ mk, SpectrumDouble.segment n mk = Spectrum.segment n mk).
  { intros mk. unfold SpectrumDouble.segment, Spectrum.segment.
    apply Forall_fmap_ext_1, Forall_forall. intros i [Hi Hi']%elem_of_seqZ.
    f_equal. apply rampDouble_exact; [done | done | lia]. }
  by rewrite !Hseg.
Qed.

(** The spectrum of the component is the one the double computation gives;
    at 105 steps a segment the two ramps part. *)
Lemma SMOOTH_VIBGYOR_COLORS_double :
  SpectrumDouble.generateSmoothSpectrum 120 = SMOOTH_VIBGYOR_COLORS
  ∧ SpectrumDouble.generateSmoothSpectrum 7 = Spectrum.generateSmoothSpectrum 7
  ∧ SpectrumDouble.ramp 105 21 = 50 ∧ Spectrum.ramp 105 21 = 51.
Proof. repeat split; vm_compute; reflexivity. Qed.

Lemma rampDouble_zero stepsPerSegment : SpectrumDouble.ramp stepsPerSegment 0 = 0.
Proof.
  unfold SpectrumDouble.ramp.
  by destruct (Double.div (Double.ofZ 255) (Double.ofZ stepsPerSegment)).
Qed.

Lemma elem_of_segmentDouble stepsPerSegment mk c :
  c ∈ SpectrumDouble.segment stepsPerSegment mk
  ↔ ∃ i, 0 ≤ i < stepsPerSegment ∧ c = mk (SpectrumDouble.ramp stepsPerSegment i).
Proof.
  unfold SpectrumDouble.segment. rewrite list_elem_of_fmap.
  setoid_rewrite elem_of_seqZ. split.
  - intros (i & -> & Hi). exists i. split; [lia | done].
  - intros (i & Hi & ->). exists i. split; [done | lia].
Qed.

Lemma NoDup_segmentDouble stepsPerSegment mk :
  1 ≤ stepsPerSegment ≤ 255 →
  (∀ v w, mk v = mk w → v = w) →
  NoDup (SpectrumDouble.segment stepsPerSegment mk).
Proof.
  intros Hsteps Hmk. unfold SpectrumDouble.segment.
  apply NoDup_fmap_2_strong; [|apply NoDup_seqZ].
  intros i j [Hi Hi']%elem_of_seqZ [Hj Hj']%elem_of_seqZ Heq%Hmk.
  destruct (Z.lt_trichotomy i j) as [Hlt|[->|Hgt]]; [|done|].
  - pose proof (rampDouble_increasing stepsPerSegment i j Hsteps). lia.
  - pose proof (rampDouble_increasing stepsPerSegment j i Hsteps). lia.
Qed.

Lemma segmentDouble_valid stepsPerSegment mk :
  1 ≤ stepsPerSegment ≤ 255 →
  (∀ v, 0 ≤ v ≤ 254 → Spectrum.valid_rgb (mk v)) →
  Forall Spectrum.valid_rgb (SpectrumDouble.segment stepsPerSegment mk).
Proof.
  intros Hsteps Hmk. apply Forall_forall. intros c (i & Hi & ->)%elem_of_segmentDouble.
  apply Hmk. by apply rampDouble_range.
Qed.

Ltac segment_member H :=
  apply elem_of_segmentDouble in H as (?i & ?Hi & ?Heq);
  match goal with
  | Hn : 1 ≤ ?n ≤ 255, Hr : 0 ≤ ?i < ?n |- _ =>
      lazymatch goal with
      | _ : 0 ≤ SpectrumDouble.ramp n i ≤ 254 |- _ => fail
      | _ => pose proof (rampDouble_range n i Hn Hr)
      end
  end.

(** X2.  Up to 1535 requested steps, the colours the generator computes in
    double precision are pairwise distinct: comparing two entries as
    references, as the tick does, is the same as comparing their
    components. *)
Theorem spectrum_colours_distinct numSteps :
  numSteps < 1536 → NoDup (SpectrumDouble.generateSmoothSpectrum numSteps).
Proof.
  intros Hsteps. unfold SpectrumDouble.generateSmoothSpectrum, slice0.
  set (n := Z.max 1 (numSteps / 6)).
  assert (Hn : 1 ≤ n ≤ 255).
  { unfold n. assert (numSteps / 6 < 256) by (apply Z.div_lt_upper_bound; lia). lia. }
  assert (Hall : NoDup
    (SpectrumDouble.segment n (λ v, (255, v, 0))
     ++ SpectrumDouble.segment n (λ v, (255 - v, 255, 0))
     ++ SpectrumDouble.segment n (λ v, (0, 255, v))
     ++ SpectrumDouble.segment n (λ v, (0, 255 - v, 255))
     ++ SpectrumDouble.segment n (λ v, (v, 0, 255))
     ++ SpectrumDouble.segment n (λ v, (255, 0, 255 - v)))).
  { repeat (apply NoDup_app; split_and!);
      try (apply NoDup_segmentDouble; [done | intros v w [=]; lia]).
    all: intros c Hc Hc'; repeat (apply elem_of_app in Hc' as [Hc'|Hc']);
      segment_member Hc; segment_member Hc'; simplify_eq; lia. }
  destruct (numSteps <? 0); (eapply sublist_NoDup; [exact Hall | apply sublist_take]).
Qed.

Lemma spectrum_colours_distinct_witness :
  NoDup (SpectrumDouble.generateSmoothSpectrum 630).
Proof. apply (spectrum_colours_distinct 630). lia. Defined.

(** X3.  Up to 1535 requested steps, every entry the generator computes
    in double precision is an RGB triple with components in [[0, 255]],
    and when at least one step is requested the first entry is pure
    red. *)
Theorem spectrum_valid_from_red numSteps :
  1 ≤ numSteps < 1536 →
  Forall Spectrum.valid_rgb (SpectrumDouble.generateSmoothSpectrum numSteps)
  ∧ head (SpectrumDouble.generateSmoothSpectrum numSteps) = Some (255, 0, 0).
Proof.
  intros Hsteps. unfold SpectrumDouble.generateSmoothSpectrum, slice0.
  replace (numSteps <? 0) with false by lia.
  set (n := Z.max 1 (numSteps / 6)).
  assert (Hn : 1 ≤ n ≤ 255).
  { unfold n. assert (numSteps / 6 < 256) by (apply Z.div_lt_upper_bound; lia). lia. }
  split.
  - apply Forall_take. rewrite !Forall_app.
    split_and!; (apply segmentDouble_valid; [done|]); intros v Hv; simpl; lia.
  - unfold SpectrumDouble.segment at 1. rewrite (seqZ_cons 0 n) by lia.
    destruct (Z.to_nat numSteps) as [|k] eqn:Hk; [lia|].
    simpl. by rewrite rampDouble_zero.
Qed.

Lemma spectrum_valid_from_red_witness :
  Forall Spectrum.valid_rgb (SpectrumDouble.generateSmoothSpectrum 630)
  ∧ head (SpectrumDouble.generateSmoothSpectrum 630) = Some (255, 0, 0).
Proof. apply (spectrum_valid_from_red 630). lia. Defined.

(** ** The shuffle and the spawn columns *)

(** X4.  Whatever the random draws, [shuffleArray] returns a permutation
    of its argument. *)
Theorem shuffle_permutes {A} (rnd : oracle) (array : list A) :
  shuffleArray rnd array ≡ₚ array ∧ length (shuffleArray rnd array) = length array.
Proof.
  pose proof (shuffleArray_Permutation rnd array) as Hperm.
  split; [done | by apply Permutation_length].
Qed.

(** X5.  For a grid of at least one column, the spawn columns are
    [max(1, floor(gridCols / 4))] pairwise distinct columns of the grid. *)
Theorem spawn_columns_of_grid gridCols rnd :
  1 ≤ gridCols →
  Z.of_nat (length (generateNewSpawnColumns gridCols rnd)) = Z.max 1 (gridCols / 4)
  ∧ NoDup (generateNewSpawnColumns gridCols rnd)
  ∧ Forall (λ c, 0 ≤ c < gridCols) (generateNewSpawnColumns gridCols rnd).
Proof. intros Hcols. by apply generateNewSpawnColumns_spec. Qed.

Lemma spawn_columns_of_grid_witness :
  Z.of_nat (length (generateNewSpawnColumns 20 rnd0)) = Z.max 1 (20 / 4)
  ∧ NoDup (generateNewSpawnColumns 20 rnd0)
  ∧ Forall (λ c, 0 ≤ c < 20) (generateNewSpawnColumns 20 rnd0).
Proof. apply (spawn_columns_of_grid 20 rnd0). lia. Defined.

(** X6.  With at most one column the spawn columns are the single column
    0, also when [gridCols] is 0 or negative; the spawn then drops that
    column at the bounds test of line 204 when the grid has no column. *)
Theorem spawn_columns_of_narrow_grid gridCols rnd index drops :
  gridCols ≤ 1 →
  generateNewSpawnColumns gridCols rnd = [0]
  ∧ spawn gridCols index drops (generateNewSpawnColumns gridCols rnd)
    = (if 0 <? gridCols then drops ++ [Drop.mk 0 0 index] else drops, []).
Proof.
  intros Hcols.
  assert (Hqueue : generateNewSpawnColumns gridCols rnd = [0]).
  { unfold generateNewSpawnColumns.
    replace (Z.max 0 (gridCols - 1) - 0 + 1) with 1 by lia.
    assert (gridCols * 1 / 4 ≤ 0).
    { destruct (decide (gridCols = 1)) as [->|]; [done|].
      apply Z.div_le_upper_bound; lia. }
    replace (Z.max 1 (gridCols * 1 / 4)) with 1 by lia. reflexivity. }
  by rewrite Hqueue.
Qed.

Lemma spawn_columns_of_narrow_grid_witness :
  generateNewSpawnColumns 0 rnd0 = [0]
  ∧ spawn 0 3 [] (generateNewSpawnColumns 0 rnd0)
    = (if 0 <? 0 then [] ++ [Drop.mk 0 0 3] else [], []).
Proof. apply (spawn_columns_of_narrow_grid 0 rnd0 3 []). lia. Defined.

Lemma shuffleFrom_ext {A} (rnd1 rnd2 : oracle) i (array : list A) :
  (∀ k, (k ≤ i)%nat → rnd1 k = rnd2 k) →
  shuffleFrom rnd1 i array = shuffleFrom rnd2 i array.
Proof.
  revert array. induction i as [|i IH]; intros array Hext; simpl; [done|].
  unfold randomBelow. rewrite (Hext (S i)) by lia. apply IH.
  intros k Hk. apply Hext. lia.
Qed.

Lemma Permutation_agree_above {A} (l1 l2 : list A) n :
  l1 ≡ₚ l2 → (∀ k, (n ≤ k)%nat → l1 !! k = l2 !! k) → take n l1 ≡ₚ take n l2.
Proof.
  intros Hperm Hagree.
  assert (Hdrop : drop n l1 = drop n l2).
  { apply list_eq. intros k. rewrite !lookup_drop. apply Hagree. lia. }
  rewrite <- (take_drop n l1), <- (take_drop n l2), Hdrop in Hperm.
  by apply Permutation_app_inv_r in Hperm.
Qed.

Lemma shuffleFrom_reaches {A} i (array target : list A) :
  array ≡ₚ target →
  (∀ k, (i < k)%nat → array !! k = target !! k) →
  ∃ rnd, shuffleFrom rnd i array = target.
Proof.
  revert array. induction i as [|i IH]; intros array Hperm Hagree.
  - exists rnd0. simpl.
    pose proof (Permutation_agree_above array target 1 Hperm) as Hhead.
    rewrite <- (take_drop 1 array), <- (take_drop 1 target). f_equal.
    + destruct array as [|a array], target as [|b target]; simpl in *.
      * done.
      * by apply Permutation_nil_l in Hperm.
      * by apply Permutation_nil_r in Hperm.
      * rewrite !take_0 in Hhead.
        assert ([a] = [b]) as [= ->]; [|done].
        apply Permutation_singleton_l, Hhead. intros k Hk. apply Hagree. lia.
    + apply list_eq. intros k. rewrite !lookup_drop. apply Hagree. lia.
  - destruct (target !! S i) as [x|] eqn:Hx; last first.
    { destruct (IH array Hperm) as [rnd Hrnd].
      - intros k Hk. destruct (decide (k = S i)) as [->|]; [|apply Hagree; lia].
        rewrite Hx. apply lookup_ge_None. apply lookup_ge_None in Hx.
        rewrite (Permutation_length Hperm). done.
      - exists rnd. simpl. unfold swap.
        replace (array !! S i) with (@None A); [done|].
        symmetry. apply lookup_ge_None. apply lookup_ge_None in Hx.
        rewrite (Permutation_length Hperm). done. }
    assert (Hin : x ∈ take (S (S i)) array).
    { rewrite (Permutation_agree_above array target (S (S i)) Hperm).
      - apply elem_of_take. exists (S i). split; [done | lia].
      - intros k Hk. apply Hagree. lia. }
    apply elem_of_take in Hin as (j & Hj & Hlt).
    destruct (array !! S i) as [y|] eqn:Hy; last first.
    { apply lookup_ge_None in Hy. apply lookup_lt_Some in Hx.
      rewrite (Permutation_length Hperm) in Hy. lia. }
    set (array' := <[j := y]> (<[S i := x]> array)).
    destruct (IH array') as [rnd Hrnd].
    + unfold array'. by rewrite (Permutation_insert_swap array (S i) j y x).
    + intros k Hk. unfold array'. destruct (decide (k = S i)) as [->|Hne].
      * rewrite Hx. destruct (decide (j = S i)) as [->|Hji].
        -- rewrite list_lookup_insert_eq; [congruence|].
           rewrite length_insert. by eapply lookup_lt_Some.
        -- rewrite list_lookup_insert_ne by done.
           apply list_lookup_insert_eq. by eapply lookup_lt_Some.
      * rewrite !list_lookup_insert_ne by lia. apply Hagree. lia.
    + exists (λ k, if decide (k = S i) then j else rnd k).
      simpl. unfold randomBelow. rewrite decide_True by done.
      rewrite Nat.mod_small by lia. unfold swap. rewrite Hy, Hj.
      fold array'. rewrite <- Hrnd. apply shuffleFrom_ext.
      intros k Hk. rewrite decide_False by lia. done.
Qed.

(** X7.  Every permutation of the argument is the result of
    [shuffleArray] for some sequence of random draws: no order of the
    columns is excluded. *)
Theorem shuffle_reaches_every_permutation {A} (array target : list A) :
  array ≡ₚ target → ∃ rnd, shuffleArray rnd array = target.
Proof.
  intros Hperm. unfold shuffleArray. apply shuffleFrom_reaches; [done|].
  intros k Hk. rewrite !lookup_ge_None_2; [done | |].
  - rewrite <- (Permutation_length Hperm). lia.
  - lia.
Qed.

Lemma shuffle_reaches_every_permutation_witness :
  ∃ rnd, shuffleArray rnd [0; 1; 2] = [2; 0; 1].
Proof.
  apply (shuffle_reaches_every_permutation [0; 1; 2] [2; 0; 1]).
  change [2; 0; 1] with ([2] ++ 0 :: [1]). apply Permutation_cons_app. apply perm_swap.
Defined.

(** ** The dimension inputs *)

(** X8.  From decimal digits with an optional minus sign, possibly
    followed by a fraction or an exponent, [parseInt] reads the integer
    written before the fraction or exponent, which it does not apply.  The
    integer is at most [2 ^ 53], so that the double [parseInt] returns is
    that integer. *)
Theorem parseInt_reads_integer_part (negative : bool) ds rest :
  ds ≠ [] → Forall isDigit ds → afterInteger rest →
  numeralValue ds ≤ 2 ^ 53 →
  ParseInt.parseInt (withSign negative (numeralBefore ds rest))
  = Some (signOf negative * numeralValue ds).
Proof. intros Hne Hds Hrest _. by apply onChangeValue_numeralBefore. Qed.

Lemma parseInt_reads_integer_part_witness :
  ParseInt.parseInt (withSign true (numeralBefore [1; 2] "e5"))
  = Some (signOf true * numeralValue [1; 2]).
Proof.
  apply (parseInt_reads_integer_part true [1; 2] "e5").
  - discriminate.
  - repeat constructor; unfold isDigit; lia.
  - simpl. right. by left.
  - vm_compute. discriminate.
Defined.

(** X9.  Typing the dimension a reachable state already has, in decimal,
    changes nothing: the effect does not run again and the animation goes
    on. *)
Theorem same_dimension_is_idle rnd s ds :
  reachable s → ds ≠ [] → Forall isDigit ds →
  (numeralValue ds = App.gridRows s →
   step (RowsInput (numeralBefore ds EmptyString) rnd) s = Some s)
  ∧ (numeralValue ds = App.gridCols s →
     step (ColsInput (numeralBefore ds EmptyString) rnd) s = Some s).
Proof.
  intros [Hrows Hcols]%reachable_dimensions Hne Hds.
  unfold MIN_DIMENSION, MAX_DIMENSION in *.
  destruct (onChangeValue_numeralBefore false ds EmptyString Hne Hds I) as [_ Hstored].
  unfold withSign, signOf in Hstored. cbn [step]. rewrite Hstored.
  unfold setGridRows, setGridCols. split; intros Heq.
  - by replace (_ =? App.gridRows s) with true by lia.
  - by replace (_ =? App.gridCols s) with true by lia.
Qed.

Lemma same_dimension_is_idle_witness :
  (numeralValue [1; 5] = App.gridRows (mount rnd0) →
   step (RowsInput (numeralBefore [1; 5] EmptyString) rnd0) (mount rnd0) = Some (mount rnd0))
  ∧ (numeralValue [1; 5] = App.gridCols (mount rnd0) →
     step (ColsInput (numeralBefore [1; 5] EmptyString) rnd0) (mount rnd0) = Some (mount rnd0)).
Proof.
  apply (same_dimension_is_idle rnd0 (mount rnd0) [1; 5]).
  - apply reachable_mount.
  - discriminate.
  - repeat constructor; unfold isDigit; lia.
Defined.

(** ** The drops over time *)

Lemma interval_inv rnd s s' :
  interval rnd s = Some s' →
  App.gridRows s' = App.gridRows s
  ∧ App.gridCols s' = App.gridCols s
  ∧ App.animation s' = tickRefs (App.gridRows s) (App.gridCols s) rnd (App.animation s).
Proof.
  destruct (interval_spec rnd s) as (g & -> & _). by intros [= <-].
Qed.

(** What a tick appends to the surviving drops: nothing, or one drop at
    row 0 of the colour the tick ends with. *)
Lemma tickRefs_spawned gridRows gridCols rnd a :
  ∃ spawned,
    activeDrops (tickRefs gridRows gridCols rnd a)
    = (advance <$> filter (λ d, keepDrop gridRows gridCols d = true) (activeDrops a))
      ++ spawned
    ∧ (spawned = []
       ∨ ∃ c, c < gridCols
              ∧ spawned
                = [Drop.mk c 0 (currentSpawningColorIndex (tickRefs gridRows gridCols rnd a))]).
Proof.
  unfold tickRefs. destruct (advanceColor _ _ _ _ _) as [index queue].
  unfold spawn. destruct queue as [|colToSpawn rest].
  - exists []. split; [by rewrite app_nil_r | by left].
  - destruct (colToSpawn <? gridCols) eqn:Hcol.
    + eexists [_]. split; [done|]. right. exists colToSpawn. split; [lia | done].
    + exists []. split; [by rewrite app_nil_r | by left].
Qed.

Lemma fallingOrder_snoc drops d :
  fallingOrder drops → Forall (λ d', Drop.row d < Drop.row d') drops →
  fallingOrder (drops ++ [d]).
Proof.
  induction drops as [|d0 drops IH]; simpl; [done|].
  intros [Hhead Hrest] [Hd0 Hd]%Forall_cons. split; [|by apply IH].
  apply Forall_app. split; [done|]. by repeat constructor.
Qed.

Lemma fallingOrder_survivors gridRows gridCols drops :
  fallingOrder drops →
  fallingOrder (advance <$> filter (λ d, keepDrop gridRows gridCols d = true) drops).
Proof.
  induction drops as [|d drops IH]; [done|]. intros [Hhead Hrest].
  rewrite filter_cons. destruct (decide _); [|by apply IH].
  rewrite fmap_cons. split; [|by apply IH].
  apply Forall_fmap, Forall_forall. intros d' [_ Hd']%list_elem_of_filter.
  rewrite Forall_forall in Hhead. specialize (Hhead d' Hd'). simpl. lia.
Qed.

Lemma fallingOrder_length drops bound :
  fallingOrder drops →
  Forall (λ d, 0 ≤ Drop.row d < bound) drops →
  Z.of_nat (length drops) ≤ Z.max 0 bound.
Proof.
  revert bound. induction drops as [|d drops IH]; intros bound; simpl; [lia|].
  intros [Hhead Hrest] [Hd Hdrops]%Forall_cons.
  assert (Z.of_nat (length drops) ≤ Z.max 0 (Drop.row d)); [|lia].
  apply IH; [done|]. rewrite Forall_forall in Hhead, Hdrops |- *.
  intros d' Hd'. specialize (Hhead d' Hd'). specialize (Hdrops d' Hd'). lia.
Qed.

(** The active drops of a reachable state, oldest first, are strictly
    ordered by decreasing row, and every row is in
    [[0, gridRows + DROP_LIFE_SPAN)]. *)
Lemma reachable_falling s :
  reachable s →
  fallingOrder (activeDrops (App.animation s))
  ∧ Forall (λ d, 0 ≤ Drop.row d < App.gridRows s + DROP_LIFE_SPAN)
           (activeDrops (App.animation s)).
Proof.
  induction 1 as [rnd|e s s' Hs [IHorder IHrows] Hstep].
  - split; [done | constructor].
  - destruct e as [rnd|input rnd|input rnd]; cbn [step] in Hstep.
    + destruct (interval_inv rnd s s' Hstep) as (-> & _ & ->).
      destruct (tickRefs_spawned (App.gridRows s) (App.gridCols s) rnd (App.animation s))
        as (spawned & -> & Hspawned).
      set (survivors := advance <$> filter _ _).
      assert (Hsurv : Forall (λ d, 1 ≤ Drop.row d < App.gridRows s + DROP_LIFE_SPAN)
                             survivors).
      { apply Forall_fmap, Forall_forall. intros d [Hk Hd]%list_elem_of_filter.
        rewrite Forall_forall in IHrows. specialize (IHrows d Hd).
        unfold keepDrop in Hk. simpl. lia. }
      pose proof (reachable_dimensions s Hs) as [Hrows _]. unfold MIN_DIMENSION in Hrows.
      destruct Hspawned as [->|(c & _ & ->)].
      * rewrite app_nil_r. split; [by apply fallingOrder_survivors|].
        eapply Forall_impl; [exact Hsurv|]. simpl. lia.
      * split.
        -- apply fallingOrder_snoc; [by apply fallingOrder_survivors|].
           eapply Forall_impl; [exact Hsurv|]. simpl. lia.
        -- apply Forall_app. split.
           ++ eapply Forall_impl; [exact Hsurv|]. simpl. lia.
           ++ repeat constructor; simpl; unfold DROP_LIFE_SPAN; lia.
    + injection Hstep as <-. unfold setGridRows.
      destruct (_ =? App.gridRows s); [done|]. split; [done | constructor].
    + injection Hstep as <-. unfold setGridCols.
      destruct (_ =? App.gridCols s); [done|]. split; [done | constructor].
Qed.

(** X10.  In a reachable state the active drops, oldest first, have
    strictly decreasing rows, all in [[0, gridRows + 7)]; so no two drops
    share a row and there are at most [gridRows + 7] of them. *)
Theorem drops_fall_in_order s :
  reachable s →
  fallingOrder (activeDrops (App.animation s))
  ∧ Forall (λ d, 0 ≤ Drop.row d < App.gridRows s + DROP_LIFE_SPAN)
           (activeDrops (App.animation s))
  ∧ Z.of_nat (length (activeDrops (App.animation s))) ≤ App.gridRows s + DROP_LIFE_SPAN.
Proof.
  intros Hs. destruct (reachable_falling s Hs) as [Horder Hrows].
  split; [done|]. split; [done|].
  pose proof (fallingOrder_length _ _ Horder Hrows) as Hlen.
  pose proof (reachable_dimensions s Hs) as [Hdim _].
  unfold MIN_DIMENSION, DROP_LIFE_SPAN in *. lia.
Qed.

Lemma drops_fall_in_order_witness :
  let s := App.mk 1 1 [[colored (Cell.mk 255 76 0 7)]]
             (mkRefs [Drop.mk 0 7 0; Drop.mk 0 6 1; Drop.mk 0 5 2; Drop.mk 0 4 3;
                      Drop.mk 0 3 4; Drop.mk 0 2 5; Drop.mk 0 1 6; Drop.mk 0 0 7] 7 []) in
  fallingOrder (activeDrops (App.animation s))
  ∧ Forall (λ d, 0 ≤ Drop.row d < App.gridRows s + DROP_LIFE_SPAN)
           (activeDrops (App.animation s))
  ∧ Z.of_nat (length (activeDrops (App.animation s))) ≤ App.gridRows s + DROP_LIFE_SPAN.
Proof.
  intros s. apply (drops_fall_in_order s).
  apply (run_reachable
           (RowsInput "1" rnd0 :: ColsInput "1" rnd0 :: replicate 8 (Tick rnd0))
           (mount rnd0)); [apply reachable_mount | vm_compute; reflexivity].
Defined.

Lemma advance_iter_row n d :
  Drop.row (Nat.iter n advance d) = Drop.row d + Z.of_nat n.
Proof.
  induction n as [|n IH]; simpl; [lia|]. rewrite IH. lia.
Qed.

(** X11.  A drop of a reachable state falls one row per tick and stays
    active exactly as long as its row is below [gridRows + 7]: after [n]
    ticks, whatever the random draws, the drop moved down [n] rows is
    active if and only if [row + n < gridRows + DROP_LIFE_SPAN]. *)
Theorem drop_lifetime (rnds : list oracle) s s' d :
  reachable s →
  d ∈ activeDrops (App.animation s) →
  run (Tick <$> rnds) s = Some s' →
  Nat.iter (length rnds) advance d ∈ activeDrops (App.animation s')
  ↔ Drop.row d + Z.of_nat (length rnds) < App.gridRows s + DROP_LIFE_SPAN.
Proof.
  revert s d. induction rnds as [|rnd rnds IH]; intros s d Hs Hd Hrun.
  - injection Hrun as <-. simpl.
    destruct (reachable_falling s Hs) as [_ Hrows].
    rewrite Forall_forall in Hrows. specialize (Hrows d Hd). split; [lia | done].
  - unfold run in Hrun. cbn [fmap list_fmap forM step] in Hrun.
    destruct (interval rnd s) as [s1|] eqn:Hstep; [|done]. cbn [mbind option_bind] in Hrun.
    assert (Hs1 : reachable s1) by (by eapply (reachable_step (Tick rnd))).
    destruct (interval_inv rnd s s1 Hstep) as (Hrows1 & Hcols1 & Hrefs1).
    assert (Hsame : App.gridRows s' = App.gridRows s).
    { rewrite <- Hrows1. clear -Hrun. revert s1 Hrun.
      induction rnds as [|rnd' rnds IH']; intros s1 Hrun; simpl in Hrun.
      - by injection Hrun as <-.
      - destruct (interval rnd' s1) as [s2|] eqn:Hstep; [|done]. simpl in Hrun.
        rewrite (IH' s2 Hrun). by destruct (interval_inv rnd' s1 s2 Hstep) as (-> & _). }
    destruct (reachable_falling s Hs) as [_ Hrows]. rewrite Forall_forall in Hrows.
    destruct (reachable_refs s Hs) as (Hinv & _ & _). rewrite Forall_forall in Hinv.
    destruct (Hinv d Hd) as (Hrow & Hcol & _).
    cbn [length]. rewrite Nat.iter_succ_r.
    destruct (keepDrop (App.gridRows s) (App.gridCols s) d) eqn:Hkeep.
    + assert (Hd1 : advance d ∈ activeDrops (App.animation s1)).
      { rewrite Hrefs1. by apply advance_survives. }
      rewrite (IH s1 (advance d) Hs1 Hd1 Hrun), Hrows1. simpl. lia.
    + apply keepDrop_false in Hkeep. split; [|lia].
      intros Hin. assert (Hs' : reachable s').
      { eapply run_reachable; [exact Hs1 | exact Hrun]. }
      destruct (reachable_falling s' Hs') as [_ Hrows'].
      rewrite Forall_forall in Hrows'. specialize (Hrows' _ Hin).
      rewrite advance_iter_row, Hsame in Hrows'. simpl in Hrows'. lia.
Qed.

Lemma drop_lifetime_witness :
  let s := App.mk 1 1 [[colored (Cell.mk 255 76 0 7)]]
             (mkRefs [Drop.mk 0 7 0; Drop.mk 0 6 1; Drop.mk 0 5 2; Drop.mk 0 4 3;
                      Drop.mk 0 3 4; Drop.mk 0 2 5; Drop.mk 0 1 6; Drop.mk 0 0 7] 7 []) in
  let s' := App.mk 1 1 [[colored (Cell.mk 255 89 0 7)]]
              (mkRefs [Drop.mk 0 7 1; Drop.mk 0 6 2; Drop.mk 0 5 3; Drop.mk 0 4 4;
                       Drop.mk 0 3 5; Drop.mk 0 2 6; Drop.mk 0 1 7; Drop.mk 0 0 8] 8 []) in
  let d := Drop.mk 0 6 1 in
  Nat.iter (length [rnd0]) advance d ∈ activeDrops (App.animation s')
  ↔ Drop.row d + Z.of_nat (length [rnd0]) < App.gridRows s + DROP_LIFE_SPAN.
Proof.
  intros s s' d. apply (drop_lifetime [rnd0] s s' d).
  - apply (run_reachable
             (RowsInput "1" rnd0 :: ColsInput "1" rnd0 :: replicate 8 (Tick rnd0))
             (mount rnd0)); [apply reachable_mount | vm_compute; reflexivity].
  - right. by left.
  - vm_compute. reflexivity.
Defined.

(** ** The colour advance never stalls *)

Lemma spawn_in_range gridCols index drops colToSpawn rest :
  colToSpawn < gridCols →
  spawn gridCols index drops (colToSpawn :: rest)
  = (drops ++ [Drop.mk colToSpawn 0 index], rest).
Proof. intros Hcol. unfold spawn. by replace (colToSpawn <? gridCols) with true by lia. Qed.

Lemma colourPending_tick gridRows gridCols rnd g g' a :
  1 ≤ gridRows → 1 ≤ gridCols →
  refsInvariant gridCols a →
  colourPending (App.mk gridRows gridCols g a) →
  colourPending (App.mk gridRows gridCols g' (tickRefs gridRows gridCols rnd a)).
Proof.
  intros Hrows Hcols (Hdrops & _ & Hqueue) Hpending.
  unfold colourPending in *. cbn [App.animation App.gridRows] in *.
  assert (Hhalf : 0 ≤ gridRows / 2 ≤ gridRows).
  { split; [apply Z.div_pos; lia | apply Z.div_le_upper_bound; lia]. }
  unfold tickRefs.
  set (flag := existsb _ _).
  set (survivors := advance <$> filter _ (activeDrops a)).
  assert (Hfresh : ∀ index c rest drops,
            c < gridCols →
            let '(drops', queue') := spawn gridCols index drops (c :: rest) in
            nextColorSpawnQueue (mkRefs drops' index queue') ≠ []
            ∨ ∃ d, d ∈ activeDrops (mkRefs drops' index queue')
                   ∧ Drop.color d = currentSpawningColorIndex (mkRefs drops' index queue')
                   ∧ Drop.row d ≤ gridRows / 2).
  { intros index c rest drops Hc. rewrite spawn_in_range by done. right.
    exists (Drop.mk c 0 index). cbn [activeDrops currentSpawningColorIndex Drop.color Drop.row].
    split; [|split; [done | lia]]. apply elem_of_app. right. by left. }
  unfold advanceColor.
  destruct (nextColorSpawnQueue a) as [|c rest] eqn:Hq.
  - destruct Hpending as [Hne|(d & Hd & Hcolor & Hrow)]; [done|].
    cbn [length Nat.eqb]. rewrite andb_true_r. destruct flag eqn:Hflag.
    + destruct (generateNewSpawnColumns_spec gridCols rnd Hcols) as (Hlen & _ & Hrange).
      destruct (generateNewSpawnColumns gridCols rnd) as [|c rest]; [simpl in Hlen; lia|].
      apply Forall_cons in Hrange as [Hc _]. apply Hfresh. lia.
    + cbn [spawn]. right. exists (advance d).
      cbn [activeDrops currentSpawningColorIndex].
      assert (Hmid : atMidpoint gridRows (currentSpawningColorIndex a) d = false).
      { destruct (atMidpoint gridRows (currentSpawningColorIndex a) d) eqn:Hm; [|done].
        assert (flag = true); [|congruence].
        apply existsb_exists. exists d. by rewrite <- list_elem_of_In. }
      unfold atMidpoint, halfwayPoint in Hmid. rewrite <- Hcolor, Nat.eqb_refl in Hmid.
      simpl in Hmid. apply Z.leb_gt in Hmid.
      rewrite Forall_forall in Hdrops. destruct (Hdrops d Hd) as (_ & Hcol & _).
      split; [|simpl; split; [done | lia]].
      apply list_elem_of_fmap_2, list_elem_of_filter. split; [|done].
      unfold keepDrop, DROP_LIFE_SPAN. lia.
  - cbn [length Nat.eqb]. rewrite andb_false_r.
    apply Forall_cons in Hqueue as [Hc _]. apply Hfresh. lia.
Qed.

Lemma reachable_colourPending s : reachable s → colourPending s.
Proof.
  induction 1 as [rnd|e s s' Hs IH Hstep].
  - left. simpl. destruct (generateNewSpawnColumns_spec 20 rnd) as (Hlen & _); [lia|].
    destruct (generateNewSpawnColumns 20 rnd); [simpl in Hlen; lia | done].
  - pose proof (reachable_dimensions s Hs) as [Hrows Hcols].
    unfold MIN_DIMENSION in *.
    assert (Heffect : ∀ rows cols rnd, 1 ≤ cols → colourPending (effect rows cols rnd)).
    { intros rows cols rnd Hc. left. simpl.
      destruct (generateNewSpawnColumns_spec cols rnd Hc) as (Hlen & _).
      destruct (generateNewSpawnColumns cols rnd); [simpl in Hlen; lia | done]. }
    destruct e as [rnd|input rnd|input rnd]; cbn [step] in Hstep.
    + destruct (interval_spec rnd s) as (g & Hrun & _).
      rewrite Hrun in Hstep. injection Hstep as <-.
      destruct s as [rows cols g0 a]. cbn [App.gridRows App.gridCols App.animation] in *.
      eapply colourPending_tick; [lia | lia | | exact IH].
      by apply (reachable_refs _ Hs).
    + injection Hstep as <-. unfold setGridRows.
      destruct (_ =? App.gridRows s); [done|]. apply Heffect. lia.
    + injection Hstep as <-. unfold setGridCols.
      destruct (_ =? App.gridCols s); [done|]. apply Heffect.
      pose proof (clampDimension_range (ParseInt.parseInt input)) as Hrange.
      unfold MIN_DIMENSION, onChangeValue in *. lia.
Qed.

(** X12.  The animation never stalls: in every reachable state the spawn
    queue is not empty or an active drop of the spawning colour is at or
    above the midpoint row, so that a drop is still to be spawned or the
    midpoint trigger is still to come; in particular there is always a
    drop or a queued column. *)
Theorem colour_cycle_never_stalls s :
  reachable s →
  colourPending s
  ∧ (activeDrops (App.animation s) ≠ [] ∨ nextColorSpawnQueue (App.animation s) ≠ []).
Proof.
  intros Hs. pose proof (reachable_colourPending s Hs) as Hpending.
  split; [done|]. destruct Hpending as [Hq|(d & Hd & _)]; [by right|].
  left. intros Hnil. rewrite Hnil in Hd. by apply not_elem_of_nil in Hd.
Qed.

Lemma colour_cycle_never_stalls_witness :
  let s := App.mk 3 2
             [[emptyObject; colored (Cell.mk 255 0 0 7)];
              [emptyObject; emptyObject];
              [emptyObject; emptyObject]]
             (mkRefs [Drop.mk 1 1 0] 0 []) in
  colourPending s
  ∧ (activeDrops (App.animation s) ≠ [] ∨ nextColorSpawnQueue (App.animation s) ≠ []).
Proof.
  intros s. apply (colour_cycle_never_stalls s).
  apply (run_reachable
           [RowsInput "3" rnd0; ColsInput "2" rnd0; Tick rnd0; Tick rnd0]
           (mount rnd0)); [apply reachable_mount | vm_compute; reflexivity].
Defined.

(** ** The cells *)

Lemma spectrumColoured_trailCell d r :
  (Drop.color d < length SMOOTH_VIBGYOR_COLORS)%nat → spectrumColoured (trailCell d r).
Proof.
  intros Hcolor. unfold trailCell, spectrumAt.
  destruct (lookup_lt_is_Some_2 SMOOTH_VIBGYOR_COLORS (Drop.color d) Hcolor) as [x Hx].
  rewrite Hx. cbn [default from_option id]. destruct x as [[cr cg] cb].
  cbn [spectrumColoured Cell.r Cell.g Cell.b]. by eapply list_elem_of_lookup_2.
Qed.

Lemma spectrumColoured_overlay gridRows gridCols drops r c x :
  Forall (λ d, (Drop.color d < length SMOOTH_VIBGYOR_COLORS)%nat) drops →
  spectrumColoured x → spectrumColoured (overlay gridRows gridCols drops r c x).
Proof.
  intros Hdrops. revert x. induction Hdrops as [|d drops Hd Hdrops IH]; intros x Hx; [done|].
  cbn [overlay]. apply IH. destruct (covers gridRows gridCols d r c); [|done].
  by apply spectrumColoured_trailCell.
Qed.

Lemma spectrumColoured_decayed x : spectrumColoured x → spectrumColoured (decayedCell x).
Proof.
  destruct x as [| |v]; [done | done |]. unfold decayedCell.
  destruct (truthy _ && lifePositive _); [done|].
  by destruct (truthy _ && lifeExhausted _).
Qed.

Lemma reachable_spectrumColoured s r c x :
  reachable s → cellAt (App.gridState s) r c = Some x → spectrumColoured x.
Proof.
  intros Hs. revert r c x. induction Hs as [rnd|e s s' Hs IH Hstep].
  - intros r c x. simpl. rewrite cellAt_emptyGrid. destruct (_ && _); [|done].
    by intros [= <-].
  - assert (Heffect : ∀ rows cols rnd r c x,
              cellAt (App.gridState (effect rows cols rnd)) r c = Some x → spectrumColoured x).
    { intros rows cols rnd r c x. simpl. rewrite cellAt_emptyGrid.
      destruct (_ && _); [|done]. by intros [= <-]. }
    destruct e as [rnd|input rnd|input rnd]; cbn [step] in Hstep.
    + destruct (interval_spec rnd s) as (g & Hrun & Hcells).
      rewrite Hrun in Hstep. injection Hstep as <-. cbn [App.gridState].
      intros r c x. rewrite Hcells. destruct (inBounds _ _ r c); [|done]. intros [= <-].
      unfold tickCell. apply spectrumColoured_overlay.
      * destruct (reachable_refs s Hs) as (Hdrops & _).
        eapply Forall_impl; [exact Hdrops|]. by intros d (_ & _ & Hcolor).
      * apply spectrumColoured_decayed. unfold copiedCell.
        destruct (cellAt (App.gridState s) r c) as [y|] eqn:Hy; [|done].
        specialize (IH r c y Hy). by destruct y.
    + injection Hstep as <-. unfold setGridRows.
      destruct (_ =? App.gridRows s); [done | apply Heffect].
    + injection Hstep as <-. unfold setGridCols.
      destruct (_ =? App.gridCols s); [done | apply Heffect].
Qed.

(** X13.  In every reachable state, the colour of a slot that holds
    [{ r, g, b, life }] is one of the 120 entries of the spectrum, so its
    components are integers of [[0, 255]]. *)
Theorem cells_show_spectrum_colours s r c v :
  reachable s →
  cellAt (App.gridState s) r c = Some (colored v) →
  (Cell.r v, Cell.g v, Cell.b v) ∈ SMOOTH_VIBGYOR_COLORS
  ∧ Spectrum.valid_rgb (Cell.r v, Cell.g v, Cell.b v).
Proof.
  intros Hs Hv. pose proof (reachable_spectrumColoured s r c _ Hs Hv) as Hin.
  split; [done|].
  pose proof (generateSmoothSpectrum_valid 120) as Hvalid.
  rewrite Forall_forall in Hvalid. by apply Hvalid.
Qed.

Lemma cells_show_spectrum_colours_witness :
  let v := Cell.mk 255 0 0 7 in
  (Cell.r v, Cell.g v, Cell.b v) ∈ SMOOTH_VIBGYOR_COLORS
  ∧ Spectrum.valid_rgb (Cell.r v, Cell.g v, Cell.b v).
Proof.
  intros v.
  apply (cells_show_spectrum_colours
           (App.mk 1 1 [[colored v]] (mkRefs [Drop.mk 0 1 0; Drop.mk 0 0 1] 1 [])) 0 0 v).
  - apply (run_reachable
             [RowsInput "1" rnd0; ColsInput "1" rnd0; Tick rnd0; Tick rnd0]
             (mount rnd0)); [apply reachable_mount | vm_compute; reflexivity].
  - reflexivity.
Defined.

(** X14.  What a tick leaves in a slot of the grid that no trail paints
    and that held no coloured cell: [null] where the previous snapshot had
    no slot, and the object without properties, not [null], where it held
    [null] or such an object already. *)
Theorem unpainted_empty_slot gridRows gridCols rnd prevGridState a g a' r c :
  tick gridRows gridCols rnd prevGridState a = Some (g, a') →
  inBounds gridRows gridCols r c = true →
  repainted gridRows gridCols (activeDrops a) r c = false →
  (cellAt prevGridState r c = None → cellAt g r c = Some null)
  ∧ (cellAt prevGridState r c = Some null ∨ cellAt prevGridState r c = Some emptyObject →
     cellAt g r c = Some emptyObject).
Proof.
  intros [_ Hcells]%tick_inv Hb Hclean. rewrite Hcells, Hb. unfold tickCell.
  rewrite overlay_not_repainted by done. unfold copiedCell.
  split; [by intros -> | by intros [-> | ->]].
Qed.

Lemma unpainted_empty_slot_witness :
  let g := [[emptyObject; null]; [emptyObject; null]] in
  (cellAt [[null]; [emptyObject]] 0 1 = None → cellAt g 0 1 = Some null)
  ∧ (cellAt [[null]; [emptyObject]] 0 1 = Some null
     ∨ cellAt [[null]; [emptyObject]] 0 1 = Some emptyObject →
     cellAt g 0 1 = Some emptyObject).
Proof.
  intros g.
  apply (unpainted_empty_slot 2 2 rnd0 [[null]; [emptyObject]] (mkRefs [] 0 []) g
           (mkRefs [] 0 [])); reflexivity.
Defined.

(** ** Overlapping trails *)

Lemma not_repainted_Forall gridRows gridCols drops r c :
  Forall (λ d, covers gridRows gridCols d r c = false) drops →
  repainted gridRows gridCols drops r c = false.
Proof.
  induction 1 as [|d drops Hd _ IH]; [done|]. unfold repainted in *. simpl.
  by rewrite Hd, IH.
Qed.

Lemma overlay_youngest gridRows gridCols drops d r c x :
  fallingOrder drops →
  d ∈ drops →
  covers gridRows gridCols d r c = true →
  (∀ d', d' ∈ drops → covers gridRows gridCols d' r c = true → Drop.row d ≤ Drop.row d') →
  overlay gridRows gridCols drops r c x = trailCell d r.
Proof.
  revert x. induction drops as [|d0 drops IH]; intros x Horder Hd Hcov Hmin.
  { by apply not_elem_of_nil in Hd. }
  destruct Horder as [Hhead Horder]. cbn [overlay].
  destruct (decide (d ∈ drops)) as [Hin|Hout].
  - apply IH; [done | done | done |]. intros d' Hd'. apply Hmin. by right.
  - apply elem_of_cons in Hd as [->|Hd]; [|done]. rewrite Hcov.
    apply overlay_not_repainted, not_repainted_Forall, Forall_forall.
    intros d' Hd'. destruct (covers gridRows gridCols d' r c) eqn:Hc'; [|done].
    rewrite Forall_forall in Hhead. specialize (Hhead d' Hd').
    specialize (Hmin d' (list_elem_of_further _ _ _ Hd') Hc'). lia.
Qed.

(** X15.  Where the trails of several drops of a reachable state overlap,
    the slot ends the tick with the colour and life painted by the drop
    whose head is nearest: of all the drops whose trail covers the slot,
    the one with the smallest row, which gives the largest life. *)
Theorem nearest_head_paints rnd s s' d r c :
  reachable s →
  interval rnd s = Some s' →
  d ∈ activeDrops (App.animation s) →
  covers (App.gridRows s) (App.gridCols s) d r c = true →
  (∀ d', d' ∈ activeDrops (App.animation s) →
         covers (App.gridRows s) (App.gridCols s) d' r c = true →
         Drop.row d ≤ Drop.row d') →
  cellAt (App.gridState s') r c = Some (trailCell d r)
  ∧ lifeOf (trailCell d r) = Some (DROP_LIFE_SPAN - (Drop.row d - r))
  ∧ ∀ d', d' ∈ activeDrops (App.animation s) →
          covers (App.gridRows s) (App.gridCols s) d' r c = true →
          DROP_LIFE_SPAN - (Drop.row d' - r) ≤ DROP_LIFE_SPAN - (Drop.row d - r).
Proof.
  intros Hs Hstep Hd Hcov Hmin.
  destruct (interval_spec rnd s) as (g & Hrun & Hcells).
  rewrite Hrun in Hstep. injection Hstep as <-. cbn [App.gridState].
  destruct (reachable_falling s Hs) as [Horder _].
  split; [|split].
  - rewrite Hcells.
    replace (inBounds (App.gridRows s) (App.gridCols s) r c) with true.
    + unfold tickCell. f_equal. by apply overlay_youngest.
    + unfold covers, paintGuard in Hcov. unfold inBounds. lia.
  - unfold trailCell. by destruct (spectrumAt (Drop.color d)) as [[cr cg] cb].
  - intros d' Hd' Hc'. specialize (Hmin d' Hd' Hc'). lia.
Qed.

Lemma nearest_head_paints_witness :
  let s := App.mk 1 1 [[colored (Cell.mk 255 76 0 7)]]
             (mkRefs [Drop.mk 0 7 0; Drop.mk 0 6 1; Drop.mk 0 5 2; Drop.mk 0 4 3;
                      Drop.mk 0 3 4; Drop.mk 0 2 5; Drop.mk 0 1 6; Drop.mk 0 0 7] 7 []) in
  let s' := App.mk 1 1 [[colored (Cell.mk 255 89 0 7)]]
              (mkRefs [Drop.mk 0 7 1; Drop.mk 0 6 2; Drop.mk 0 5 3; Drop.mk 0 4 4;
                       Drop.mk 0 3 5; Drop.mk 0 2 6; Drop.mk 0 1 7; Drop.mk 0 0 8] 8 []) in
  let d := Drop.mk 0 0 7 in
  cellAt (App.gridState s') 0 0 = Some (trailCell d 0)
  ∧ lifeOf (trailCell d 0) = Some (DROP_LIFE_SPAN - (Drop.row d - 0))
  ∧ ∀ d', d' ∈ activeDrops (App.animation s) →
          covers (App.gridRows s) (App.gridCols s) d' 0 0 = true →
          DROP_LIFE_SPAN - (Drop.row d' - 0) ≤ DROP_LIFE_SPAN - (Drop.row d - 0).
Proof.
  intros s s' d. apply (nearest_head_paints rnd0 s s' d 0 0).
  - apply (run_reachable
             (RowsInput "1" rnd0 :: ColsInput "1" rnd0 :: replicate 8 (Tick rnd0))
             (mount rnd0)); [apply reachable_mount | vm_compute; reflexivity].
  - vm_compute. reflexivity.
  - cbn [s App.animation activeDrops]. do 7 right. by left.
  - reflexivity.
  - intros d' Hd' _. cbn [s App.animation activeDrops] in Hd'.
    repeat (apply elem_of_cons in Hd' as [->|Hd']); simpl; try lia.
    by apply not_elem_of_nil in Hd'.
Defined.

(** ** The shape of the snapshot *)

Lemma forM_preserves {A S} (P : S → Prop) (body : A → S → option S) l s s' :
  (∀ i s1 s2, P s1 → body i s1 = Some s2 → P s2) →
  P s → forM body l s = Some s' → P s'.
Proof.
  intros Hbody. revert s. induction l as [|i l IH]; intros s Hs; simpl.
  - by intros [= <-].
  - destruct (body i s) as [s1|] eqn:Hstep; [|done]. simpl.
    apply IH. by eapply Hbody.
Qed.

Lemma rectangular_emptyGrid rows cols :
  0 ≤ rows → 0 ≤ cols → rectangular rows cols (emptyGrid rows cols).
Proof.
  intros Hrows Hcols. unfold rectangular, emptyGrid. split.
  - rewrite length_replicate. lia.
  - apply Forall_replicate. rewrite length_replicate. lia.
Qed.

Lemma rectangular_writeCell rows cols g r c x g' :
  rectangular rows cols g → writeCell g r c x = Some g' → rectangular rows cols g'.
Proof.
  intros [Hlen Hlines]. unfold writeCell. destruct (cellAt g r c); [|done].
  intros [= <-]. unfold store. split; [by rewrite length_alter|].
  apply Forall_alter; [done|]. intros line _ Hline. by rewrite length_insert.
Qed.

Lemma rectangular_tick gridRows gridCols rnd prevGridState a g a' :
  0 ≤ gridRows → 0 ≤ gridCols →
  tick gridRows gridCols rnd prevGridState a = Some (g, a') →
  rectangular gridRows gridCols g.
Proof.
  intros Hrows Hcols Hrun. unfold tick in Hrun.
  destruct (copyGrid gridRows gridCols prevGridState) as [copied|] eqn:Hcopy;
    cbn [mbind option_bind] in Hrun; [|done].
  destruct (decay gridRows gridCols copied) as [decayed|] eqn:Hdecay;
    cbn [mbind option_bind] in Hrun; [|done].
  destruct (forM _ (activeDrops a) _) as [s|] eqn:Hsweep;
    cbn [mbind option_bind] in Hrun; [|done].
  destruct (advanceColor _ _ _ _ _) as [index queue].
  destruct (spawn _ _ _ _) as [drops queue']. injection Hrun as <- _.
  assert (Hcopied : rectangular gridRows gridCols copied).
  { unfold copyGrid in Hcopy.
    eapply (forM_preserves (rectangular gridRows gridCols)); [| |exact Hcopy].
    - intros r g1 g2 Hg1. unfold copyRow. destruct (rowLength prevGridState r); [|done].
      cbn [mbind option_bind]. apply forM_preserves; [|done].
      intros c g3 g4 Hg3. unfold copyCell. destruct (readCell prevGridState r c); [|done].
      cbn [mbind option_bind]. by apply rectangular_writeCell.
    - by apply rectangular_emptyGrid. }
  assert (Hdecayed : rectangular gridRows gridCols decayed).
  { unfold decay in Hdecay.
    eapply (forM_preserves (rectangular gridRows gridCols)); [|exact Hcopied|exact Hdecay].
    intros r g1 g2 Hg1. apply forM_preserves; [|done].
    intros c g3 g4 Hg3. unfold decayCell. destruct (readCell g3 r c) as [x|]; [|done].
    cbn [mbind option_bind]. destruct (truthy x && lifePositive x).
    { by apply rectangular_writeCell. }
    destruct (truthy x && lifeExhausted x); [by apply rectangular_writeCell|].
    by intros [= <-]. }
  eapply (forM_preserves (λ s, rectangular gridRows gridCols (newGridState s)));
    [| |exact Hsweep]; [|done].
  intros d s1 s2 Hs1. unfold dropStep.
  destruct (paintTrail gridRows gridCols d (newGridState s1)) as [g1|] eqn:Hpaint; [|done].
  cbn [mbind option_bind]. intros [= <-]. cbn [newGridState].
  unfold paintTrail in Hpaint.
  eapply (forM_preserves (rectangular gridRows gridCols)); [|exact Hs1|exact Hpaint].
  intros r g3 g4 Hg3. unfold paintCell. destruct (paintGuard gridRows gridCols d r).
  - by apply rectangular_writeCell.
  - by intros [= <-].
Qed.



(** ** Spawning *)

(** X17.  While the spawn queue of a reachable state is not empty, a tick
    leaves the colour index alone, even if a drop is at the midpoint,
    takes the first column of the queue, keeps the others in order and
    appends one drop of the spawning colour at row 0 of that column after
    the surviving drops. *)
Theorem queue_is_served_in_order rnd s s' colToSpawn rest :
  reachable s →
  nextColorSpawnQueue (App.animation s) = colToSpawn :: rest →
  interval rnd s = Some s' →
  currentSpawningColorIndex (App.animation s') = currentSpawningColorIndex (App.animation s)
  ∧ nextColorSpawnQueue (App.animation s') = rest
  ∧ activeDrops (App.animation s')
    = (advance <$> filter (λ d, keepDrop (App.gridRows s) (App.gridCols s) d = true)
                          (activeDrops (App.animation s)))
      ++ [Drop.mk colToSpawn 0 (currentSpawningColorIndex (App.animation s))].
Proof.
  intros Hs Hqueue Hstep.
  destruct (interval_inv rnd s s' Hstep) as (_ & _ & ->).
  destruct (reachable_refs s Hs) as (_ & _ & Hrange).
  rewrite Hqueue in Hrange. apply Forall_cons in Hrange as [Hcol _].
  unfold tickRefs, advanceColor. rewrite Hqueue. cbn [length Nat.eqb].
  rewrite andb_false_r, spawn_in_range by lia. done.
Qed.

Lemma queue_is_served_in_order_witness :
  let s := mount rnd0 in
  let s' := App.mk 15 20 (replicate 15 (replicate 20 emptyObject))
              (mkRefs [Drop.mk 1 0 0] 0 [2; 3; 4; 5]) in
  currentSpawningColorIndex (App.animation s') = currentSpawningColorIndex (App.animation s)
  ∧ nextColorSpawnQueue (App.animation s') = [2; 3; 4; 5]
  ∧ activeDrops (App.animation s')
    = (advance <$> filter (λ d, keepDrop (App.gridRows s) (App.gridCols s) d = true)
                          (activeDrops (App.animation s)))
      ++ [Drop.mk 1 0 (currentSpawningColorIndex (App.animation s))].
Proof.
  intros s s'. apply (queue_is_served_in_order rnd0 s s' 1 [2; 3; 4; 5]).
  - apply reachable_mount.
  - vm_compute. reflexivity.
  - vm_compute. reflexivity.
Defined.

(** X18.  The converse of the trigger: when the queue of a reachable state
    is empty and an active drop of the spawning colour has reached the
    midpoint row, the tick moves the index to the next colour, which is a
    different one, draws new spawn columns and spawns the first of them
    as a drop of the new colour in the same tick. *)
Theorem midpoint_advances_colour rnd s s' d :
  reachable s →
  nextColorSpawnQueue (App.animation s) = [] →
  d ∈ activeDrops (App.animation s) →
  Drop.color d = currentSpawningColorIndex (App.animation s) →
  App.gridRows s / 2 ≤ Drop.row d →
  interval rnd s = Some s' →
  let index' := ((currentSpawningColorIndex (App.animation s) + 1)
                 mod length SMOOTH_VIBGYOR_COLORS)%nat in
  currentSpawningColorIndex (App.animation s') = index'
  ∧ index' ≠ currentSpawningColorIndex (App.animation s)
  ∧ ∃ colToSpawn,
      generateNewSpawnColumns (App.gridCols s) rnd
      = colToSpawn :: nextColorSpawnQueue (App.animation s')
      ∧ last (activeDrops (App.animation s')) = Some (Drop.mk colToSpawn 0 index').
Proof.
  intros Hs Hqueue Hd Hcolor Hrow Hstep index'.
  destruct (interval_inv rnd s s' Hstep) as (_ & _ & ->).
  destruct (reachable_refs s Hs) as (_ & Hindex & _).
  pose proof (reachable_dimensions s Hs) as [_ Hcols]. unfold MIN_DIMENSION in Hcols.
  assert (Hflag : existsb (atMidpoint (App.gridRows s)
                             (currentSpawningColorIndex (App.animation s)))
                          (activeDrops (App.animation s)) = true).
  { apply existsb_exists. exists d. split; [by apply list_elem_of_In|].
    unfold atMidpoint, halfwayPoint. rewrite Hcolor, Nat.eqb_refl. simpl. lia. }
  destruct (generateNewSpawnColumns_spec (App.gridCols s) rnd) as (Hlen & _ & Hrange); [lia|].
  unfold tickRefs, advanceColor. rewrite Hflag, Hqueue. cbn [length Nat.eqb andb].
  fold index'.
  destruct (generateNewSpawnColumns (App.gridCols s) rnd) as [|c rest];
    [simpl in Hlen; lia|].
  apply Forall_cons in Hrange as [Hc _]. rewrite spawn_in_range by lia.
  cbn [currentSpawningColorIndex nextColorSpawnQueue activeDrops].
  split; [done|]. split.
  - unfold index'. pose proof (proj1 spectrum_entries_distinct) as Hlength.
    remember (length SMOOTH_VIBGYOR_COLORS) as n eqn:Hn in *. subst n.
    intros Heq.
    destruct (decide (currentSpawningColorIndex (App.animation s) = 119%nat)) as [H119|H119].
    + rewrite H119 in Heq. vm_compute in Heq. discriminate.
    + rewrite Nat.mod_small in Heq by lia. lia.
  - exists c. split; [done|]. by rewrite last_snoc.
Qed.

Lemma midpoint_advances_colour_witness :
  let s := App.mk 3 2
             [[emptyObject; colored (Cell.mk 255 0 0 7)];
              [emptyObject; emptyObject];
              [emptyObject; emptyObject]]
             (mkRefs [Drop.mk 1 1 0] 0 []) in
  let s' := App.mk 3 2
              [[emptyObject; colored (Cell.mk 255 0 0 6)];
               [emptyObject; colored (Cell.mk 255 0 0 7)];
               [emptyObject; emptyObject]]
              (mkRefs [Drop.mk 1 2 0; Drop.mk 1 0 1] 1 []) in
  let index' := ((currentSpawningColorIndex (App.animation s) + 1)
                 mod length SMOOTH_VIBGYOR_COLORS)%nat in
  currentSpawningColorIndex (App.animation s') = index'
  ∧ index' ≠ currentSpawningColorIndex (App.animation s)
  ∧ ∃ colToSpawn,
      generateNewSpawnColumns (App.gridCols s) rnd0
      = colToSpawn :: nextColorSpawnQueue (App.animation s')
      ∧ last (activeDrops (App.animation s')) = Some (Drop.mk colToSpawn 0 index').
Proof.
  intros s s'. apply (midpoint_advances_colour rnd0 s s' (Drop.mk 1 1 0)).
  - apply (run_reachable
             [RowsInput "3" rnd0; ColsInput "2" rnd0; Tick rnd0; Tick rnd0]
             (mount rnd0)); [apply reachable_mount | vm_compute; reflexivity].
  - reflexivity.
  - by left.
  - reflexivity.
  - vm_compute. discriminate.
  - vm_compute. reflexivity.
Defined.

(** ** The copy of the previous snapshot *)

Lemma rectangular_ext rows cols (g1 g2 : grid) :
  rectangular rows cols g1 → rectangular rows cols g2 →
  (∀ r c, cellAt g1 r c = cellAt g2 r c) → g1 = g2.
Proof.
  intros [Hlen1 Hlines1] [Hlen2 Hlines2] Hcells. apply list_eq. intros i.
  destruct (g1 !! i) as [line1|] eqn:H1; last first.
  { symmetry. apply lookup_ge_None. apply lookup_ge_None in H1. lia. }
  destruct (g2 !! i) as [line2|] eqn:H2; last first.
  { apply lookup_ge_None in H2. apply lookup_lt_Some in H1. lia. }
  f_equal. apply list_eq. intros j.
  specialize (Hcells (Z.of_nat i) (Z.of_nat j)).
  rewrite (cellAt_lookup g1 _ _ line1), (cellAt_lookup g2 _ _ line2) in Hcells
    by (lia || by rewrite Nat2Z.id).
  by rewrite !Nat2Z.id in Hcells.
Qed.

(** X19.  A tick reads the previous snapshot only inside the current
    dimensions: two previous snapshots with the same slots inside
    [gridRows] by [gridCols] give the same tick, whatever they hold, or
    lack, outside. *)
Theorem tick_ignores_outside gridRows gridCols rnd (prev1 prev2 : grid) a :
  0 ≤ gridRows → 0 ≤ gridCols →
  (∀ r c, inBounds gridRows gridCols r c = true → cellAt prev1 r c = cellAt prev2 r c) →
  tick gridRows gridCols rnd prev1 a = tick gridRows gridCols rnd prev2 a.
Proof.
  intros Hrows Hcols Hsame.
  destruct (tick_spec gridRows gridCols rnd prev1 a) as (g1 & Hrun1 & Hcells1).
  destruct (tick_spec gridRows gridCols rnd prev2 a) as (g2 & Hrun2 & Hcells2).
  rewrite Hrun1, Hrun2. do 2 f_equal.
  apply (rectangular_ext gridRows gridCols).
  - by eapply rectangular_tick.
  - by eapply rectangular_tick.
  - intros r c. rewrite Hcells1, Hcells2.
    destruct (inBounds gridRows gridCols r c) eqn:Hb; [|done].
    unfold tickCell, copiedCell. by rewrite (Hsame r c Hb).
Qed.

Lemma tick_ignores_outside_witness :
  tick 1 1 rnd0 [[null; colored (Cell.mk 1 2 3 4)]; [emptyObject]] (mkRefs [] 0 [0])
  = tick 1 1 rnd0 [[null]] (mkRefs [] 0 [0]).
Proof.
  apply (tick_ignores_outside 1 1 rnd0); [lia | lia |].
  intros r c Hb. unfold inBounds in Hb.
  assert (r = 0 ∧ c = 0) as [-> ->] by lia. reflexivity.
Defined.
